(** * Approximate-LRU cache (greyireland/lru): a shallow embedding

    The repository has two replacement engines:
    - [Generic]: package [lru] (internal/lru), [LRU[K,V]], the engine wrapped
      by the thread-safe [Cache] facade of lru.go;
    - [Approx]: package [approxlru], the older string-keyed [LRU].

    Modelling conventions.
    - Go maps are stdpp [gmap]s, slices are lists; an index out of range or
      an explicit [panic] makes the operation return [None].
    - Every operation runs in a small state/abort monad [M S A].
    - The eviction callback is recorded: the state carries a flag saying
      whether [onEvict] is non-nil and the list of calls made so far.
    - The engine's random generator is an oracle: each call to [rng.Intn]
      becomes an explicit argument of the operation (for instance the probe
      [base] of an eviction), and [rng.Shuffle] becomes a choice function.
      A theorem that needs [rng.Intn(n)] to be in range says so. *)

From Stdlib Require Import ZArith Lia Sorted Permutation.
From stdpp Require Import base gmap strings list fin_maps pretty.

(* ------------------------------------------------------------------ *)
(** ** A state/abort monad for Go methods on [*LRU] *)

Definition M (S A : Type) : Type := S -> option (A * S).

Definition ret {S A} (a : A) : M S A := fun s => Some (a, s).
Definition bind {S A B} (m : M S A) (k : A -> M S B) : M S B :=
  fun s => match m s with
           | Some (a, s') => k a s'
           | None => None
           end.
Definition get {S} : M S S := fun s => Some (s, s).
Definition put {S} (s : S) : M S unit := fun _ => Some (tt, s).
(** a Go [panic], or a run-time error such as an index out of range *)
Definition panic {S A} : M S A := fun _ => None.
Definition lift {S A} (o : option A) : M S A :=
  match o with Some a => ret a | None => panic end.

Declare Scope lru_scope.
Delimit Scope lru_scope with lru.
Notation "'do' x <- c1 ; c2" := (bind c1 (fun x => c2))
  (at level 200, x name, c1 at level 100, c2 at level 200) : lru_scope.
Open Scope lru_scope.

(* ------------------------------------------------------------------ *)
(** ** Shared by both engines: entries, int64 wrap-around, the probe *)

(** [type entry struct { lastUsed int64; key K; value V }] *)
Record entry (K V : Type) := mkEntry { lastUsed : Z; key : K; value : V }.
Arguments mkEntry {K V} _ _ _.
Arguments lastUsed {K V} _.
Arguments key {K V} _.
Arguments value {K V} _.

(** int64 arithmetic wraps around. *)
Definition wrap64 (z : Z) : Z := ((z + 2 ^ 63) mod 2 ^ 64) - 2 ^ 63.

(** [const randomProbes = 8] *)
Definition randomProbes : nat := 8.

(** The inner loop of the probe:
    [for j := 1; j < randomProbes; j++ { off := offOf(j); candidate := &c.data[off];
       if candidate.lastUsed < oldest.lastUsed { oldestOff = off; oldest = *candidate } }]. *)
Fixpoint probe_scan {K V} (data : list (entry K V)) (offOf : nat -> nat)
    (js : list nat) (acc : nat * entry K V) : option (nat * entry K V) :=
  match js with
  | [] => Some acc
  | j :: js' =>
      let off := offOf j in
      match data !! off with
      | None => None
      | Some candidate =>
          if (lastUsed candidate <? lastUsed acc.2)%Z
          then probe_scan data offOf js' (off, candidate)
          else probe_scan data offOf js' acc
      end
  end.

(** The selection part of [findOldest] (package lru) and of [removeOldest]
    (package approxlru), which is the same code in both: [size] is
    [c.Len()], [base] is the value returned by [c.rng.Intn(size)].
    [None] is a run-time panic (index out of range); [Some None] is the
    [size <= 0] early return; [Some (Some (oldestOff, oldest))] otherwise. *)
Definition probe_select {K V} (data : list (entry K V)) (size base : nat)
    : option (option (nat * entry K V)) :=
  if size <=? 0 then Some None
  else
    match data !! base with
    | None => None
    | Some oldest =>
        let js := seq 1 (randomProbes - 1) in
        if base + randomProbes - 1 <? size
        then option_map Some (probe_scan data (fun j => base + j) js (base, oldest))
        else option_map Some (probe_scan data (fun j => (base + j) mod size) js (base, oldest))
    end.

(** Result of a Go constructor returning a cache pointer or an error. *)
Inductive result (A : Type) := Ok (a : A) | Err (msg : string).
Arguments Ok {A} _.
Arguments Err {A} _.

(** Go's [len(m)] of a map. *)
Definition map_len {K A : Type} `{Countable K} (m : gmap K A) : nat := size m.

(* ------------------------------------------------------------------ *)
(** ** Package [lru]: the generic engine [LRU[K,V]] behind [Cache] *)

Module Generic.
Section Engine.
Context {K : Type} `{Countable K} {V : Type}.
(** the zero values of [K] and [V] ([var d V], [entry[K,V]{}]) *)
Context (kzero : K) (vzero : V).

(** [type LRU[K,V] struct { items map[K]int; data []entry[K,V]; counter int64;
    size int64; rng rand.Rand; onEvict EvictCallback[K,V] }];
    [rng] is the oracle of the arguments, [onEvict] the flag and the log. *)
Record LRU := mkLRU {
  items : gmap K nat;
  data : list (entry K V);
  counter : Z;
  size : Z;
  onEvict : bool;
  evictLog : list (K * V)
}.

Definition with_items (c : LRU) (m : gmap K nat) : LRU :=
  mkLRU m (data c) (counter c) (size c) (onEvict c) (evictLog c).
Definition with_data (c : LRU) (d : list (entry K V)) : LRU :=
  mkLRU (items c) d (counter c) (size c) (onEvict c) (evictLog c).
Definition with_counter (c : LRU) (n : Z) : LRU :=
  mkLRU (items c) (data c) n (size c) (onEvict c) (evictLog c).
Definition with_size (c : LRU) (n : Z) : LRU :=
  mkLRU (items c) (data c) (counter c) n (onEvict c) (evictLog c).
Definition with_log (c : LRU) (l : list (K * V)) : LRU :=
  mkLRU (items c) (data c) (counter c) (size c) (onEvict c) l.

(** [c.data[i]] as an expression *)
Definition load (i : nat) : M LRU (entry K V) :=
  do c <- get; lift (data c !! i).
(** [c.data[i] = e] *)
Definition store (i : nat) (e : entry K V) : M LRU unit :=
  do c <- get;
  if i <? length (data c) then put (with_data c (<[i := e]> (data c))) else panic.
(** [c.items[k] = i] *)
Definition setItem (k : K) (i : nat) : M LRU unit :=
  do c <- get; put (with_items c (<[k := i]> (items c))).
(** [delete(c.items, k)] *)
Definition delItem (k : K) : M LRU unit :=
  do c <- get; put (with_items c (delete k (items c))).
(** [if c.onEvict != nil { c.onEvict(k, v) }] *)
Definition callOnEvict (k : K) (v : V) : M LRU unit :=
  do c <- get;
  if onEvict c then put (with_log c (evictLog c ++ [(k, v)])) else ret tt.

(** [NewLRU(size, onEvict)] *)
Definition NewLRU (sz : Z) (hasEvict : bool) : result LRU :=
  if (sz <=? 0)%Z then Err "must provide a positive size"
  else Ok (mkLRU ∅ [] 1 sz hasEvict []).

(** [getCounter]: self-heals a zero counter, then post-increments it
    (int64, no overflow check in this package). *)
Definition getCounter : M LRU Z :=
  do c <- get;
  let c1 := if (counter c =? 0)%Z then with_counter c 1 else c in
  let n := counter c1 in
  do _ <- put (with_counter c1 (wrap64 (n + 1)));
  ret n.

(** [swap(i, j)] *)
Definition swap (i j : nat) : M LRU unit :=
  if i =? j then ret tt
  else
    do di <- load i; do _ <- setItem (key di) j;
    do dj <- load j; do _ <- setItem (key dj) i;
    (* c.data[i], c.data[j] = c.data[j], c.data[i] *)
    do ei <- load i; do ej <- load j;
    do _ <- store i ej; store j ei.

(** [addShuffled(ent)]; [j] is [c.rng.Intn(len(c.data))] after the append. *)
Definition addShuffled (ent : entry K V) (j : nat) : M LRU unit :=
  do c <- get;
  if (Z.of_nat (length (data c)) =? size c)%Z then panic
  else
    let i := length (data c) in
    do _ <- put (with_data c (data c ++ [ent]));
    do _ <- setItem (key ent) i;
    swap i j.

(** [findOldest()]; [base] is [c.rng.Intn(size)]. [None] stands for [(-1, false)]. *)
Definition findOldest (base : nat) : M LRU (option nat) :=
  do c <- get;
  do r <- lift (probe_select (data c) (map_len (items c)) base);
  ret (option_map fst r).

(** [removeElement(i, ent, doSwap)] *)
Definition removeElement (i : nat) (ent : entry K V) (doSwap : bool) : M LRU unit :=
  do c <- get;
  if (Z.of_nat i >=? size c)%Z || (length (data c) =? 0) then panic
  else
    do _ <- (if doSwap
             then do _ <- swap i (length (data c) - 1);
                  (* clear the last slot, then truncate it away *)
                  do c1 <- get;
                  put (with_data c1 (take (length (data c1) - 1) (data c1)))
             else ret tt);
    do _ <- delItem (key ent);
    callOnEvict (key ent) (value ent).

(** [Add(key, value)]; [base] is the probe draw used when the storage is
    full, [j] the placement draw used otherwise. *)
Definition Add (k : K) (v : V) (base j : nat) : M LRU bool :=
  do now <- getCounter;
  do c <- get;
  match items c !! k with
  | Some i =>
      do e <- load i;
      do _ <- store i (mkEntry now (key e) v);
      ret false
  | None =>
      if (size c =? 0)%Z then ret false
      else
        let ent := mkEntry now k v in
        if (Z.of_nat (length (data c)) =? size c)%Z
        then
          do r <- findOldest base;
          match r with
          | Some i =>
              do e <- load i;
              do _ <- removeElement i e false;
              do _ <- store i ent;
              do _ <- setItem (key ent) i;
              ret true
          | None => panic (* "invariant broken" *)
          end
        else
          do _ <- addShuffled ent j;
          ret false
  end.

(** [Get(key)] *)
Definition Get (k : K) : M LRU (V * bool) :=
  do c <- get;
  match items c !! k with
  | Some i =>
      do e <- load i;
      if decide (key e = k)
      then
        do now <- getCounter;
        do _ <- store i (mkEntry now (key e) (value e));
        ret (value e, true)
      else ret (vzero, false)
  | None => ret (vzero, false)
  end.

(** [Contains(key)] *)
Definition Contains (k : K) : M LRU bool :=
  do c <- get; ret (bool_decide (is_Some (items c !! k))).

(** [Peek(key)] *)
Definition Peek (k : K) : M LRU (V * bool) :=
  do c <- get;
  match items c !! k with
  | Some i => do e <- load i; ret (value e, true)
  | None => ret (vzero, false)
  end.

(** [Remove(key)] *)
Definition Remove (k : K) : M LRU bool :=
  do c <- get;
  match items c !! k with
  | Some i => do e <- load i; do _ <- removeElement i e true; ret true
  | None => ret false
  end.

(** [Len()] *)
Definition Len : M LRU nat := do c <- get; ret (map_len (items c)).

(** [Purge()]. Go ranges over the map in an unspecified order; the model
    takes the order of [map_to_list]. *)
Fixpoint purge_calls (l : list (K * nat)) : M LRU unit :=
  match l with
  | [] => ret tt
  | (k, i) :: l' =>
      do e <- load i;
      do _ <- (if (0 <? lastUsed e)%Z then callOnEvict k (value e) else ret tt);
      purge_calls l'
  end.

Definition Purge : M LRU unit :=
  do c <- get;
  do _ <- (if onEvict c then purge_calls (map_to_list (items c)) else ret tt);
  do c1 <- get;
  (* c.data = c.data[:0]; c.items = make(map[K]int, c.size) *)
  put (mkLRU ∅ [] (counter c1) (size c1) (onEvict c1) (evictLog c1)).

(** [slices.SortFunc(c.data, func(a, b) bool { return a.lastUsed > b.lastUsed })]:
    an insertion sort into descending [lastUsed] order (Go's sort is not
    stable; the two agree whenever the stamps are distinct). *)
Fixpoint insert_desc (e : entry K V) (l : list (entry K V)) : list (entry K V) :=
  match l with
  | [] => [e]
  | x :: l' => if (lastUsed x <=? lastUsed e)%Z then e :: l else x :: insert_desc e l'
  end.

Fixpoint sort_desc (l : list (entry K V)) : list (entry K V) :=
  match l with
  | [] => []
  | e :: l' => insert_desc e (sort_desc l')
  end.

(** [for i, entry := range c.data { if entry.lastUsed == 0 { continue }; c.items[entry.key] = i }] *)
Fixpoint reindex (m : gmap K nat) (i : nat) (l : list (entry K V)) : gmap K nat :=
  match l with
  | [] => m
  | e :: l' => reindex (if (lastUsed e =? 0)%Z then m else <[key e := i]> m) (S i) l'
  end.

(** [for i := 0; i < diff; i++ { j := oldSize - 1 - i; c.removeElement(j, c.data[j], true) }] *)
Fixpoint resize_evict (oldSize : Z) (i : nat) (n : nat) : M LRU unit :=
  match n with
  | O => ret tt
  | S n' =>
      let j := (oldSize - 1 - Z.of_nat i)%Z in
      if (j <? 0)%Z then panic
      else
        do e <- load (Z.to_nat j);
        do _ <- removeElement (Z.to_nat j) e true;
        resize_evict oldSize (S i) n'
  end.

(** [Resize(size)]. The slots that the eviction loop cut off were cleared
    to [entry{}] first, so re-slicing [c.data[:size]] up to [oldSize] sees
    zero entries there; [make]+[copy] pads with zero entries likewise. *)
Definition Resize (sz : Z) : M LRU Z :=
  do c <- get;
  let diff := Z.max 0 (Z.of_nat (map_len (items c)) - sz) in
  let sorted := sort_desc (data c) in
  do _ <- put (with_items (with_data c sorted) (reindex (items c) 0 sorted));
  let oldSize := length sorted in
  do _ <- resize_evict (Z.of_nat oldSize) 0 (Z.to_nat diff);
  do c1 <- get;
  let c2 := with_size c1 sz in
  let zero := mkEntry 0%Z kzero vzero in
  let backing := data c2 ++ repeat zero (oldSize - length (data c2)) in
  if (sz <? Z.of_nat oldSize)%Z
  then
    if (sz <? 0)%Z then panic
    else do _ <- put (with_data c2 (take (Z.to_nat sz) backing)); ret diff
  else
    do _ <- put (with_data c2 (take oldSize backing)); ret diff.

End Engine.

(** ** The facade [Cache[K,V]] of lru.go: each method runs under [c.lock];
    sequentially it is the engine call itself. *)
Section Facade.
Context {K : Type} `{Countable K} {V : Type} (vzero : V).

(** [ContainsOrAdd(key, value)] *)
Definition ContainsOrAdd (k : K) (v : V) (base j : nat) : M (LRU (K:=K) (V:=V)) (bool * bool) :=
  do found <- Contains k;
  if found then ret (true, false)
  else do evicted <- Add k v base j; ret (false, evicted).

(** [PeekOrAdd(key, value)] *)
Definition PeekOrAdd (k : K) (v : V) (base j : nat) : M (LRU (K:=K) (V:=V)) (V * bool * bool) :=
  do r <- Peek vzero k;
  let '(previous, ok) := r in
  if ok then ret (previous, true, false)
  else do evicted <- Add k v base j; ret (previous, false, evicted).

End Facade.
End Generic.

(* ------------------------------------------------------------------ *)
(** ** Package [approxlru]: the string-keyed engine [LRU] *)

Module Approx.
Section Engine.
(** [value interface{}]; [vnil] is the nil interface value. *)
Context {V : Type} (vnil : V).

Record LRU := mkLRU {
  items : gmap string nat;
  data : list (entry string V);
  counter : Z;
  size : Z;
  onEvict : bool;
  evictLog : list (string * V)
}.

Definition with_items (c : LRU) (m : gmap string nat) : LRU :=
  mkLRU m (data c) (counter c) (size c) (onEvict c) (evictLog c).
Definition with_data (c : LRU) (d : list (entry string V)) : LRU :=
  mkLRU (items c) d (counter c) (size c) (onEvict c) (evictLog c).
Definition with_counter (c : LRU) (n : Z) : LRU :=
  mkLRU (items c) (data c) n (size c) (onEvict c) (evictLog c).
Definition with_log (c : LRU) (l : list (string * V)) : LRU :=
  mkLRU (items c) (data c) (counter c) (size c) (onEvict c) l.

Definition load (i : nat) : M LRU (entry string V) :=
  do c <- get; lift (data c !! i).
Definition store (i : nat) (e : entry string V) : M LRU unit :=
  do c <- get;
  if i <? length (data c) then put (with_data c (<[i := e]> (data c))) else panic.
Definition setItem (k : string) (i : nat) : M LRU unit :=
  do c <- get; put (with_items c (<[k := i]> (items c))).
Definition delItem (k : string) : M LRU unit :=
  do c <- get; put (with_items c (delete k (items c))).
Definition callOnEvict (k : string) (v : V) : M LRU unit :=
  do c <- get;
  if onEvict c then put (with_log c (evictLog c ++ [(k, v)])) else ret tt.

(** [entry{}]: the empty slot, with the zero string as key *)
Definition empty_entry : entry string V := mkEntry 0%Z "" vnil.

(** [NewLRU(size, onEvict)] *)
Definition NewLRU (sz : Z) (hasEvict : bool) : result LRU :=
  if (sz <=? 0)%Z then Err "must provide a positive size"
  else Ok (mkLRU ∅ [] 1 sz hasEvict []).

(** [getCounter]: as in package lru, plus the overflow panic. *)
Definition getCounter : M LRU Z :=
  do c <- get;
  let c1 := if (counter c =? 0)%Z then with_counter c 1 else c in
  let n := counter c1 in
  let c2 := with_counter c1 (wrap64 (n + 1)) in
  if (counter c2 <? 0)%Z then panic (* "counter overflow" *)
  else do _ <- put c2; ret n.

(** the swap callback of [shuffle] (no [i == j] test) *)
Definition shuffleSwap (i j : nat) : M LRU unit :=
  do di <- load i; do _ <- setItem (key di) j;
  do dj <- load j; do _ <- setItem (key dj) i;
  do ei <- load i; do ej <- load j;
  do _ <- store i ej; store j ei.

(** [c.rng.Shuffle(len(c.data), swap)]: Fisher-Yates from [n-1] down to [1];
    [pick i] is the draw in [[0, i]] made at step [i]. *)
Fixpoint shuffle_from (pick : nat -> nat) (i : nat) : M LRU unit :=
  match i with
  | O => ret tt
  | S i' => do _ <- shuffleSwap i (pick i); shuffle_from pick i'
  end.

Definition shuffle (pick : nat -> nat) : M LRU unit :=
  do c <- get; shuffle_from pick (length (data c) - 1).

(** [removeElement(i, ent)]: empty slots are skipped; the slot is cleared
    in place, the storage is not truncated. *)
Definition removeElement (i : nat) (ent : entry string V) : M LRU unit :=
  if (lastUsed ent =? 0)%Z then ret tt
  else
    do _ <- store i empty_entry;
    do _ <- delItem (key ent);
    callOnEvict (key ent) (value ent).

(** [removeOldest()]: returns [-1] on an empty map. *)
Definition removeOldest (base : nat) : M LRU Z :=
  do c <- get;
  do r <- lift (probe_select (data c) (map_len (items c)) base);
  match r with
  | None => ret (-1)%Z
  | Some (oldestOff, oldest) =>
      do _ <- removeElement oldestOff oldest;
      ret (Z.of_nat oldestOff)
  end.

(** [c.data[i] = e] and [c.items[k] = i] with an [int] index *)
Definition storeZ (i : Z) (e : entry string V) : M LRU unit :=
  if (i <? 0)%Z then panic else store (Z.to_nat i) e.

(** [Add(key, value)]; [pick] drives the shuffle made when the storage
    fills up, [base] the probe of an eviction. *)
Definition Add (k : string) (v : V) (pick : nat -> nat) (base : nat) : M LRU bool :=
  do now <- getCounter;
  do c <- get;
  match items c !! k with
  | Some i =>
      do e <- load i;
      do _ <- store i (mkEntry now (key e) v);
      ret false
  | None =>
      if (size c =? 0)%Z then ret false
      else
        let ent := mkEntry now k v in
        if (Z.of_nat (length (data c)) <? size c)%Z
        then
          let i := length (data c) in
          do _ <- put (with_data c (data c ++ [ent]));
          do _ <- setItem k i;
          do c1 <- get;
          do _ <- (if (Z.of_nat (length (data c1)) =? size c1)%Z then shuffle pick else ret tt);
          ret false
        else
          do i <- removeOldest base;
          do _ <- storeZ i ent;
          do _ <- setItem k (Z.to_nat i);
          ret true
  end.

(** [Get(key)] *)
Definition Get (k : string) : M LRU (V * bool) :=
  do c <- get;
  match items c !! k with
  | Some i =>
      do e <- load i;
      if decide (key e = k)
      then
        do now <- getCounter;
        do _ <- store i (mkEntry now (key e) (value e));
        ret (value e, true)
      else ret (vnil, false)
  | None => ret (vnil, false)
  end.

(** [Contains(key)] *)
Definition Contains (k : string) : M LRU bool :=
  do c <- get; ret (bool_decide (is_Some (items c !! k))).

(** [Remove(key)] *)
Definition Remove (k : string) : M LRU bool :=
  do c <- get;
  match items c !! k with
  | Some i => do e <- load i; do _ <- removeElement i e; ret true
  | None => ret false
  end.

(** [Len()] *)
Definition Len : M LRU nat := do c <- get; ret (map_len (items c)).

End Engine.
End Approx.

(* ------------------------------------------------------------------ *)
(** ** Vocabulary of the properties *)

(** [lastUsed] of slot [x] ([0] when there is no such slot) *)
Definition stamp_at {K V} (data : list (entry K V)) (x : nat) : Z :=
  match data !! x with Some e => lastUsed e | None => 0%Z end.

(** The probing order: [base, base+1, ..., base+P-1] modulo [N]. *)
Definition probe_offsets (N base : nat) : list nat :=
  map (fun j => (base + j) mod N) (seq 0 randomProbes).

(** [r] is the first, in the order of [offs], of the offsets holding the
    smallest stamp; [p] is its position in [offs]. *)
Definition first_min {K V} (data : list (entry K V)) (offs : list nat) (r p : nat) : Prop :=
  offs !! p = Some r /\
  (forall q o, offs !! q = Some o -> (stamp_at data r <= stamp_at data o)%Z) /\
  (forall q o, q < p -> offs !! q = Some o -> (stamp_at data r < stamp_at data o)%Z).

(** [a] precedes [b] in descending [lastUsed] order *)
Definition stamp_desc {K V} (a b : entry K V) : Prop := (lastUsed b <= lastUsed a)%Z.

(** the number of occupied slots (package approxlru marks an empty slot by
    [lastUsed == 0]) *)
Definition live_count {K V} (d : list (entry K V)) : nat :=
  length (List.filter (fun e => negb (lastUsed e =? 0)%Z) d).

(** run a sequence of method calls on the cache a constructor returned *)
Definition run_from {S A} (r : result S) (m : M S A) : option (A * S) :=
  match r with Ok s => m s | Err _ => None end.

Module GenericWf.
Import Generic.
Section Wf.
Context {K : Type} `{Countable K} {V : Type}.

(** Well-formed cache (I1, I2, I3 of the spec): the map and the storage are
    in bijection, the map has one entry per slot, the storage fits in [size]. *)
Definition wf (c : LRU (K:=K) (V:=V)) : Prop :=
  (forall k i, items c !! k = Some i -> exists e, data c !! i = Some e /\ key e = k) /\
  (forall i e, data c !! i = Some e -> items c !! key e = Some i) /\
  map_len (items c) = length (data c) /\
  (Z.of_nat (length (data c)) <= size c)%Z.

(** the value [getCounter] hands out *)
Definition next_stamp (c : LRU (K:=K) (V:=V)) : Z :=
  if (counter c =? 0)%Z then 1%Z else counter c.

(** the callback log after the destruction of [e] *)
Definition log_after (c : LRU (K:=K) (V:=V)) (e : entry K V) : list (K * V) :=
  if onEvict c then evictLog c ++ [(key e, value e)] else evictLog c.

(** a decision procedure for [wf] *)
Fixpoint slots_ok (m : gmap K nat) (i : nat) (l : list (entry K V)) : bool :=
  match l with
  | [] => true
  | e :: l' => bool_decide (m !! key e = Some i) && slots_ok m (S i) l'
  end.

Definition wfb (c : LRU (K:=K) (V:=V)) : bool :=
  forallb (fun ki => match data c !! ki.2 with
                     | Some e => bool_decide (key e = ki.1)
                     | None => false
                     end) (map_to_list (items c)) &&
  slots_ok (items c) 0 (data c) &&
  (map_len (items c) =? length (data c)) &&
  (Z.of_nat (length (data c)) <=? size c)%Z.

(** every slot carries a non-zero stamp (package lru never stores stamp 0:
    [getCounter] turns a zero counter into 1) *)
Definition stamped (d : list (entry K V)) : Prop :=
  Forall (fun e => lastUsed e <> 0%Z) d.

(** what the cache holds: the value of each key of the map, read at its slot *)
Definition contents (c : LRU (K:=K) (V:=V)) : gmap K V :=
  omap (fun i => value <$> data c !! i) (items c).

End Wf.
End GenericWf.

(** Call sequences on the facade [Cache] of lru.go: one call of each method
    with the draws of the random generator it needs, the loop of [main] in
    internal/lru/lru_interface.go, and a list of calls run in order. *)
Module Calls.
Import Generic.
Section Calls.
Context {K : Type} `{Countable K} {V : Type} (kzero : K) (vzero : V).

Inductive call :=
| CAdd (k : K) (v : V) (base j : nat)
| CGet (k : K)
| CContains (k : K)
| CPeek (k : K)
| CContainsOrAdd (k : K) (v : V) (base j : nat)
| CPeekOrAdd (k : K) (v : V) (base j : nat)
| CRemove (k : K)
| CResize (sz : Z)
| CLen
| CPurge.

Definition run_call (cl : call) : M (LRU (K:=K) (V:=V)) unit :=
  match cl with
  | CAdd k v base j => do _ <- Add k v base j; ret tt
  | CGet k => do _ <- Get vzero k; ret tt
  | CContains k => do _ <- Contains k; ret tt
  | CPeek k => do _ <- Peek vzero k; ret tt
  | CContainsOrAdd k v base j => do _ <- ContainsOrAdd k v base j; ret tt
  | CPeekOrAdd k v base j => do _ <- PeekOrAdd vzero k v base j; ret tt
  | CRemove k => do _ <- Remove k; ret tt
  | CResize sz => do _ <- Resize kzero vzero sz; ret tt
  | CLen => do _ <- Len; ret tt
  | CPurge => Purge
  end.

Fixpoint add_loop (kf : nat -> K) (val : nat -> V) (base j : nat -> nat) (i n : nat)
    : M (LRU (K:=K) (V:=V)) unit :=
  match n with
  | O => ret tt
  | S n' => do _ <- Add (kf i) (val i) (base i) (j i); add_loop kf val base j (S i) n'
  end.

Fixpoint run_calls (l : list call) : M (LRU (K:=K) (V:=V)) unit :=
  match l with
  | [] => ret tt
  | cl :: l' => do _ <- run_call cl; run_calls l'
  end.
End Calls.
End Calls.

(** Concrete caches and call sequences. *)
Module Samples.
Local Open Scope string_scope.

(** one entry, room for one more *)
Definition one : Generic.LRU (K:=string) (V:=Z) :=
  Generic.mkLRU {["a" := 0]} [mkEntry 1%Z "a" 10%Z] 2%Z 2%Z true [].

(** full, the older entry in slot 0 *)
Definition full : Generic.LRU (K:=string) (V:=Z) :=
  Generic.mkLRU (<["b" := 1]> {["a" := 0]}) [mkEntry 2%Z "a" 10%Z; mkEntry 3%Z "b" 20%Z]
    4%Z 2%Z true [].

(** capacity zero, as [Resize(0)] leaves it *)
Definition zero_cap : Generic.LRU (K:=string) (V:=Z) :=
  Generic.mkLRU ∅ [] 1%Z 0%Z false [].

(** inconsistent: ["a"] points to a slot holding ["b"] *)
Definition mismatch : Generic.LRU (K:=string) (V:=Z) :=
  Generic.mkLRU {["a" := 0]} [mkEntry 1%Z "b" 7%Z] 2%Z 1%Z false [].

(** inconsistent: a full storage but an empty map *)
Definition broken : Generic.LRU (K:=string) (V:=Z) :=
  Generic.mkLRU ∅ [mkEntry 1%Z "a" 10%Z] 2%Z 1%Z false [].

Definition approx_one : Approx.LRU (V:=Z) :=
  Approx.mkLRU {["a" := 0]} [mkEntry 1%Z "a" 10%Z] 2%Z 2%Z true [].

Definition approx_mismatch : Approx.LRU (V:=Z) :=
  Approx.mkLRU {["a" := 0]} [mkEntry 1%Z "b" 7%Z] 2%Z 1%Z false [].

(** package approxlru: full, the older entry in slot 0 *)
Definition approx_full : Approx.LRU (V:=Z) :=
  Approx.mkLRU (<["b" := 1]> {["a" := 0]}) [mkEntry 2%Z "a" 10%Z; mkEntry 3%Z "b" 20%Z]
    4%Z 2%Z true [].

(** package approxlru: capacity zero *)
Definition approx_zero_cap : Approx.LRU (V:=Z) :=
  Approx.mkLRU ∅ [] 1%Z 0%Z false [].

(** package approxlru: [Add a; Add b; Remove a; Len; Add c] on a cache of
    size 2 ([rng.Shuffle] draws the identity, [rng.Intn] draws 0) *)
Definition approx_evict_with_room : M (Approx.LRU (V:=Z)) (nat * bool) :=
  do _ <- Approx.Add 0%Z "a" 1%Z (fun i => i) 0;
  do _ <- Approx.Add 0%Z "b" 2%Z (fun i => i) 0;
  do _ <- Approx.Remove 0%Z "a";
  do n <- Approx.Len;
  do evicted <- Approx.Add 0%Z "c" 3%Z (fun i => i) 0;
  ret (n, evicted).

(** package approxlru: [Add a; Remove a; Add b] on a cache of size 2, the
    shuffle made when the storage fills up swapping slots 1 and 0; then
    [Len], the occupied slots, and [Get("")] *)
Definition approx_hole_key : M (Approx.LRU (V:=Z)) (nat * nat * (Z * bool)) :=
  do _ <- Approx.Add 0%Z "a" 1%Z (fun i => i) 0;
  do _ <- Approx.Remove 0%Z "a";
  do _ <- Approx.Add 0%Z "b" 2%Z (fun _ => 0) 0;
  do n <- Approx.Len;
  do c <- get;
  do r <- Approx.Get 0%Z "";
  ret (n, live_count (Approx.data c), r).

(** a session of calls on a cache of size 2 with a callback *)
Definition session : list (Calls.call (K:=string) (V:=Z)) :=
  [Calls.CAdd "a" 1%Z 0 0; Calls.CAdd "b" 2%Z 0 1; Calls.CAdd "c" 3%Z 1 0; Calls.CGet "b";
   Calls.CPeekOrAdd "d" 4%Z 0 0; Calls.CResize 1%Z; Calls.CRemove "b";
   Calls.CContainsOrAdd "e" 5%Z 0 0; Calls.CResize 3%Z; Calls.CAdd "f" 6%Z 0 1; Calls.CPurge;
   Calls.CAdd "g" 7%Z 0 0].
(** the state that session ends in *)
Definition session_end : Generic.LRU (K:=string) (V:=Z) :=
  Eval vm_compute in
  match run_from (Generic.NewLRU 2 true) (Calls.run_calls "" 0%Z session) with
  | Some (_, c) => c
  | None => Samples.one
  end.
(** [one] after [Add("b", 20)] with the draw 1 *)
Definition one_plus_b : Generic.LRU (K:=string) (V:=Z) :=
  Eval vm_compute in
  match Generic.Add "b" 20%Z 0 1 one with Some (_, c) => c | None => one end.

(** package approxlru: a cache whose counter is at the int64 maximum *)
Definition approx_worn : Approx.LRU (V:=Z) :=
  Approx.mkLRU {["a" := 0]} [mkEntry 1%Z "a" 10%Z] (2 ^ 63 - 1)%Z 2%Z true [].
End Samples.

(* ================================================================== *)
(** * Proofs *)

Section ProbeProofs.
Context {K V : Type} (data : list (entry K V)).

Lemma first_min_snoc offs r p x :
  first_min data offs r p ->
  first_min data (offs ++ [x])
    (if (stamp_at data x <? stamp_at data r)%Z then x else r)
    (if (stamp_at data x <? stamp_at data r)%Z then length offs else p).
Proof.
  intros (Hp & Hle & Hlt).
  assert (Hplt : p < length offs) by (apply lookup_lt_Some in Hp; lia).
  destruct (Z.ltb_spec (stamp_at data x) (stamp_at data r)) as [Hx | Hx];
    repeat split.
  - rewrite lookup_app_r by lia. by rewrite Nat.sub_diag.
  - intros q o Hq. apply lookup_app_Some in Hq as [Hq | [Hge Hq]].
    + specialize (Hle q o Hq). lia.
    + apply list_lookup_singleton_Some in Hq as [_ <-]. lia.
  - intros q o Hq Ho. rewrite lookup_app_l in Ho by lia.
    specialize (Hle q o Ho). lia.
  - rewrite lookup_app_l by lia. done.
  - intros q o Hq. apply lookup_app_Some in Hq as [Hq | [Hge Hq]].
    + eauto.
    + apply list_lookup_singleton_Some in Hq as [_ <-]. lia.
  - intros q o Hq Ho. rewrite lookup_app_l in Ho by lia. eauto.
Qed.

Lemma probe_scan_first_min offOf js offs r p e :
  first_min data offs r p -> data !! r = Some e ->
  (forall j, j ∈ js -> offOf j < length data) ->
  exists r' p' e',
    probe_scan data offOf js (r, e) = Some (r', e') /\ data !! r' = Some e' /\
    first_min data (offs ++ map offOf js) r' p'.
Proof.
  revert offs r p e.
  induction js as [|j js IH]; intros offs r p e Hmin Hr Hin; simpl.
  - exists r, p, e. rewrite app_nil_r. done.
  - assert (Hj : offOf j < length data) by (apply Hin; left).
    destruct (lookup_lt_is_Some_2 data (offOf j) Hj) as [cand Hc].
    rewrite Hc.
    pose proof (first_min_snoc offs r p (offOf j) Hmin) as Hsnoc.
    unfold stamp_at at 1 2 in Hsnoc. rewrite Hc, Hr in Hsnoc. simpl in *.
    replace (offs ++ offOf j :: map offOf js) with ((offs ++ [offOf j]) ++ map offOf js)
      by (rewrite <- app_assoc; done).
    destruct (lastUsed cand <? lastUsed e)%Z.
    + eapply IH; eauto. intros j' Hj'. apply Hin. by right.
    + eapply IH; eauto. intros j' Hj'. apply Hin. by right.
Qed.

End ProbeProofs.

Lemma probe_offsets_head_tail (N base : nat) :
  base < N ->
  probe_offsets N base = base :: map (fun j => (base + j) mod N) (seq 1 (randomProbes - 1)).
Proof.
  intros Hb. unfold probe_offsets. simpl.
  rewrite Nat.add_0_r, Nat.mod_small by lia. done.
Qed.

Lemma probe_select_first_min {K V} (data : list (entry K V)) (N base : nat) :
  0 < N -> N <= length data -> base < N ->
  exists off p e,
    probe_select data N base = Some (Some (off, e)) /\ data !! off = Some e /\
    first_min data (probe_offsets N base) off p.
Proof.
  intros HN Hlen Hb.
  unfold probe_select.
  destruct (Nat.leb_spec N 0) as [?|_]; [lia|].
  destruct (lookup_lt_is_Some_2 data base) as [oldest Ho]; [lia|].
  rewrite Ho.
  assert (Hinit : first_min data [base] base 0).
  { repeat split.
    - intros q o Hq. apply list_lookup_singleton_Some in Hq as [_ <-]. lia.
    - intros q o Hq. lia. }
  rewrite (probe_offsets_head_tail N base Hb).
  destruct (Nat.ltb_spec (base + randomProbes - 1) N) as [Hnw | Hw].
  - destruct (probe_scan_first_min data (fun j => base + j) (seq 1 (randomProbes - 1))
                [base] base 0 oldest Hinit Ho) as (r & p & e & Hs & Hr & Hm).
    { intros j Hj. apply elem_of_seq in Hj. unfold randomProbes in *. lia. }
    exists r, p, e. rewrite Hs. split; [done|]. split; [done|].
    replace (map (fun j => (base + j) mod N) (seq 1 (randomProbes - 1)))
      with (map (fun j => base + j) (seq 1 (randomProbes - 1))); [exact Hm|].
    apply map_ext_in. intros j Hj. apply in_seq in Hj.
    unfold randomProbes in *. rewrite Nat.mod_small; lia.
  - destruct (probe_scan_first_min data (fun j => (base + j) mod N) (seq 1 (randomProbes - 1))
                [base] base 0 oldest Hinit Ho) as (r & p & e & Hs & Hr & Hm).
    { intros j _. pose proof (Nat.mod_upper_bound (base + j) N). lia. }
    exists r, p, e. rewrite Hs. done.
Qed.

(** With at most [randomProbes] slots, the probe visits every slot. *)
Lemma probe_offsets_cover (N base x : nat) :
  N <= randomProbes -> base < N -> x < N -> x ∈ probe_offsets N base.
Proof.
  intros HN Hb Hx. unfold probe_offsets.
  apply list_elem_of_In, in_map_iff.
  destruct (Nat.le_gt_cases base x).
  - exists (x - base). split.
    + replace (base + (x - base)) with x by lia. apply Nat.mod_small. lia.
    + apply in_seq. lia.
  - exists (x + N - base). split.
    + replace (base + (x + N - base)) with (x + 1 * N) by lia.
      rewrite Nat.Div0.mod_add. apply Nat.mod_small. lia.
    + apply in_seq. lia.
Qed.



(** [cbn] can leave record projections inside stuck arguments *)
Ltac gproj :=
  repeat match goal with
  | |- context [Generic.items (Generic.mkLRU ?a ?b ?c ?d ?e ?f)] =>
      change (Generic.items (Generic.mkLRU a b c d e f)) with a
  | |- context [Generic.data (Generic.mkLRU ?a ?b ?c ?d ?e ?f)] =>
      change (Generic.data (Generic.mkLRU a b c d e f)) with b
  | |- context [Generic.counter (Generic.mkLRU ?a ?b ?c ?d ?e ?f)] =>
      change (Generic.counter (Generic.mkLRU a b c d e f)) with c
  | |- context [Generic.size (Generic.mkLRU ?a ?b ?c ?d ?e ?f)] =>
      change (Generic.size (Generic.mkLRU a b c d e f)) with d
  | |- context [Generic.onEvict (Generic.mkLRU ?a ?b ?c ?d ?e ?f)] =>
      change (Generic.onEvict (Generic.mkLRU a b c d e f)) with e
  | |- context [Generic.evictLog (Generic.mkLRU ?a ?b ?c ?d ?e ?f)] =>
      change (Generic.evictLog (Generic.mkLRU a b c d e f)) with f
  end.

(** unfold the monad and the slice/map helpers of package lru *)
Ltac gsimpl :=
  cbv [bind get put ret lift panic Generic.load Generic.store Generic.setItem
       Generic.delItem Generic.callOnEvict Generic.with_items Generic.with_data
       Generic.with_counter Generic.with_size Generic.with_log]; cbn; gproj; cbn.

(** run the monadic code, rewriting with the equations in the context *)
Ltac gsteps :=
  repeat (gsimpl; match goal with
                  | Hq : ?x = _ |- context [?x] => rewrite Hq
                  end); gsimpl.

Section GenericProofs.
Context {K : Type} `{Countable K} {V : Type}.
Import Generic GenericWf.
Local Arguments Nat.ltb : simpl never.
Local Arguments Nat.eqb : simpl never.
Implicit Types (c : LRU (K:=K) (V:=V)).

Lemma Add_evict c k v base j off e :
  items c !! k = None -> size c <> 0%Z ->
  Z.of_nat (length (data c)) = size c ->
  probe_select (data c) (map_len (items c)) base = Some (Some (off, e)) ->
  data c !! off = Some e ->
  Add k v base j c =
    Some (true, mkLRU (<[k := off]> (delete (key e) (items c)))
                      (<[off := mkEntry (next_stamp c) k v]> (data c))
                      (wrap64 (next_stamp c + 1)) (size c) (onEvict c) (log_after c e)).
Proof.
  intros Hk Hs Hlen Hp He.
  pose proof (lookup_lt_Some _ _ _ He) as Hoff.
  unfold Add, getCounter, findOldest, removeElement, next_stamp, log_after.
  apply Z.eqb_neq in Hs. unfold map_len in Hp. gsimpl.
  destruct (counter c =? 0)%Z; gsimpl; rewrite Hk, Hs, Hlen, Z.eqb_refl; gsimpl; rewrite Hp; gsimpl;
    rewrite He; gsimpl;
    (destruct ((Z.of_nat off >=? size c)%Z) eqn:Hge; [apply Z.geb_le in Hge; lia|]);
    (destruct (length (data c) =? 0) eqn:Hz; [apply Nat.eqb_eq in Hz; lia|]); gsimpl;
    destruct (onEvict c); gsimpl;
    rewrite (proj2 (Nat.ltb_lt off (length (data c))) Hoff); gsimpl; done.
Qed.

Lemma findOldest_eq c base :
  findOldest base c =
    match probe_select (data c) (map_len (items c)) base with
    | Some r => Some (option_map fst r, c)
    | None => None
    end.
Proof.
  unfold findOldest. gsimpl. unfold map_len.
  destruct (probe_select (data c) (base.size (items c)) base); done.
Qed.

Lemma wf_map_len c : wf c -> map_len (items c) = length (data c).
Proof. intros (_ & _ & Hl & _). exact Hl. Qed.

Lemma Add_append_last c k v base :
  items c !! k = None -> size c <> 0%Z ->
  Z.of_nat (length (data c)) <> size c ->
  Add k v base (length (data c)) c =
    Some (false, mkLRU (<[k := length (data c)]> (items c))
                       (data c ++ [mkEntry (next_stamp c) k v])
                       (wrap64 (next_stamp c + 1)) (size c) (onEvict c) (evictLog c)).
Proof.
  intros Hk Hs Hl.
  apply Z.eqb_neq in Hs. apply Z.eqb_neq in Hl.
  unfold Add, getCounter, addShuffled, swap, next_stamp. gsimpl.
  pose proof (Nat.eqb_refl (length (data c))) as Hr.
  destruct (counter c =? 0)%Z; gsteps; done.
Qed.

Lemma Add_append_swap c k v base j ej :
  items c !! k = None -> size c <> 0%Z ->
  Z.of_nat (length (data c)) <> size c ->
  j < length (data c) -> data c !! j = Some ej ->
  Add k v base j c =
    Some (false, mkLRU (<[key ej := length (data c)]> (<[k := j]> (<[k := length (data c)]> (items c))))
                       (<[j := mkEntry (next_stamp c) k v]>
                          (<[length (data c) := ej]> (data c ++ [mkEntry (next_stamp c) k v])))
                       (wrap64 (next_stamp c + 1)) (size c) (onEvict c) (evictLog c)).
Proof.
  intros Hk Hs Hl Hj Hej.
  apply Z.eqb_neq in Hs. apply Z.eqb_neq in Hl.
  assert (HjL : (length (data c) =? j) = false) by (apply Nat.eqb_neq; lia).
  assert (Hlast : (data c ++ [mkEntry (next_stamp c) k v]) !! length (data c)
                  = Some (mkEntry (next_stamp c) k v)).
  { rewrite lookup_app_r by lia. rewrite Nat.sub_diag. done. }
  assert (Hj' : (data c ++ [mkEntry (next_stamp c) k v]) !! j = Some ej).
  { rewrite lookup_app_l by lia. done. }
  assert (Hlt1 : (length (data c) <? length (data c ++ [mkEntry (next_stamp c) k v])) = true).
  { apply Nat.ltb_lt. rewrite length_app. simpl. lia. }
  assert (Hlt2 : (j <? length (<[length (data c) := ej]> (data c ++ [mkEntry (next_stamp c) k v]))) = true).
  { apply Nat.ltb_lt. rewrite length_insert, length_app. simpl. lia. }
  unfold next_stamp in *.
  unfold Add, getCounter, addShuffled, swap. gsimpl.
  destruct (counter c =? 0)%Z; gsteps; done.
Qed.

Lemma key_ne_of_lookup (m : gmap K nat) k k' i :
  m !! k = None -> m !! k' = Some i -> k' <> k.
Proof. intros Hk Hk' ->. congruence. Qed.

Lemma wf_probe c base :
  wf c -> base < map_len (items c) ->
  exists off p e,
    probe_select (data c) (map_len (items c)) base = Some (Some (off, e)) /\
    data c !! off = Some e /\
    first_min (data c) (probe_offsets (map_len (items c)) base) off p.
Proof.
  intros Hwf Hb. apply probe_select_first_min; [lia| |lia].
  rewrite (wf_map_len c Hwf). lia.
Qed.

(** X14 (package lru, the engine behind [Cache]): [Add(k, v)] of a key that
    is not in the cache, capacity positive. If fewer entries are live than
    the capacity, the new entry [{now, k, v}] (now = the advanced counter) is
    appended, then placed at the drawn slot [j] (the entry displaced from [j]
    moves to the appended position), [k] is mapped to [j], and Add returns
    [false]. If as many entries are live as the capacity, the probe picks a
    slot [off], the entry [e] there is destroyed (its map entry removed, the
    callback called with it) and [{now, k, v}] is written into slot [off],
    [k] is mapped to [off], and Add returns [true]. *)
Theorem Add_new_key_cases c k v base j :
  wf c -> items c !! k = None -> (0 < size c)%Z ->
  ((Z.of_nat (map_len (items c)) < size c)%Z -> j <= map_len (items c) ->
     exists c' elast,
       Add k v base j c = Some (false, c') /\
       data c' = <[j := mkEntry (next_stamp c) k v]> (data c ++ [elast]) /\
       (j < length (data c) -> data c !! j = Some elast) /\
       (j = length (data c) -> elast = mkEntry (next_stamp c) k v) /\
       items c' = <[k := j]> (<[key elast := length (data c)]> (items c)) /\
       counter c' = wrap64 (next_stamp c + 1) /\ size c' = size c /\
       evictLog c' = evictLog c) /\
  (Z.of_nat (map_len (items c)) = size c -> base < map_len (items c) ->
     exists off e c',
       findOldest base c = Some (Some off, c) /\ data c !! off = Some e /\
       Add k v base j c = Some (true, c') /\
       data c' = <[off := mkEntry (next_stamp c) k v]> (data c) /\
       items c' = <[k := off]> (delete (key e) (items c)) /\
       counter c' = wrap64 (next_stamp c + 1) /\ size c' = size c /\
       evictLog c' = log_after c e).
Proof.
  intros Hwf Hk Hpos. pose proof (wf_map_len c Hwf) as Hlen.
  split.
  - intros Hlt Hj. rewrite Hlen in Hlt, Hj.
    destruct (Nat.eq_dec j (length (data c))) as [-> | Hne].
    + rewrite (Add_append_last c k v base Hk) by lia.
      eexists _, (mkEntry (next_stamp c) k v). split; [done|]. cbn.
      repeat split; try done; try lia.
      * rewrite insert_app_r_alt, Nat.sub_diag by lia. done.
      * rewrite insert_insert_eq. done.
    + destruct (lookup_lt_is_Some_2 (data c) j) as [ej Hej]; [lia|].
      rewrite (Add_append_swap c k v base j ej Hk) by (exact Hej || lia).
      eexists _, ej. split; [done|]. cbn.
      destruct Hwf as (_ & Hinv & _).
      pose proof (key_ne_of_lookup _ k (key ej) j Hk (Hinv j ej Hej)) as Hkne.
      repeat split; try done; try lia.
      * rewrite insert_app_r_alt, Nat.sub_diag by lia. done.
      * rewrite insert_insert_eq, insert_insert_ne by (intros ?; apply Hkne; congruence). done.
  - intros Heq Hb.
    destruct (wf_probe c base Hwf Hb) as (off & p & e & Hsel & He & _).
    assert (Hfull : Z.of_nat (length (data c)) = size c) by (rewrite <- Hlen; exact Heq).
    rewrite (Add_evict c k v base j off e Hk) by (exact Hsel || exact He || exact Hfull || lia).
    exists off, e. eexists. rewrite findOldest_eq, Hsel.
    repeat split; done.
Qed.

Lemma wf_slot_key c k i e :
  wf c -> items c !! k = Some i -> data c !! i = Some e -> key e = k.
Proof.
  intros (Hm & _ & _ & _) Hk He.
  destruct (Hm k i Hk) as (e' & He' & <-). congruence.
Qed.

Lemma Remove_present c k i e elast :
  wf c -> items c !! k = Some i -> data c !! i = Some e ->
  data c !! (length (data c) - 1) = Some elast ->
  Remove k c =
    Some (true, mkLRU (delete k (<[key elast := i]> (items c)))
                      (take (length (data c) - 1) (<[i := elast]> (data c)))
                      (counter c) (size c) (onEvict c) (log_after c e)).
Proof.
  intros Hwf Hk He Hlast.
  pose proof (wf_slot_key c k i e Hwf Hk He) as Hke.
  destruct Hwf as (Hm & Hinv & Hlen & Hsz).
  pose proof (lookup_lt_Some _ _ _ He) as Hi.
  assert (Hge : (Z.of_nat i >=? size c)%Z = false) by (rewrite Z.geb_leb; apply Z.leb_gt; lia).
  assert (HL0 : (length (data c) =? 0) = false) by (apply Nat.eqb_neq; lia).
  unfold Remove, removeElement, swap, log_after. gsimpl.
  rewrite Hk. gsimpl. rewrite He. gsimpl. rewrite Hge, HL0. gsimpl.
  destruct (Nat.eq_dec i (length (data c) - 1)) as [Heq | Hne].
  - assert (Hii : (i =? length (data c) - 1) = true) by (apply Nat.eqb_eq; lia).
    rewrite Hii. gsimpl.
    assert (elast = e) as -> by (rewrite <- Heq in Hlast; congruence).
    rewrite <- Heq, Hke, delete_insert_eq, list_insert_id by done.
    destruct (onEvict c); gsimpl; done.
  - assert (Hii : (i =? length (data c) - 1) = false) by (apply Nat.eqb_neq; lia).
    assert (Hlt1 : (i <? length (data c)) = true) by (apply Nat.ltb_lt; lia).
    assert (Hlt2 : (length (data c) - 1 <? length (<[i:=elast]> (data c))) = true)
      by (apply Nat.ltb_lt; rewrite length_insert; lia).
    assert (Hkl : key elast <> k).
    { intros Hkl. apply Hinv in Hlast. rewrite Hkl, Hk in Hlast. congruence. }
    rewrite Hii. gsimpl. rewrite He. gsimpl. rewrite Hlast. gsimpl. rewrite He. gsimpl.
    rewrite Hlast. gsimpl. rewrite Hlt1. gsimpl. rewrite Hlt2. gsimpl.
    rewrite !length_insert, take_insert_ge by lia.
    rewrite Hke, insert_insert_ne, delete_insert_eq by congruence.
    destruct (onEvict c); gsimpl; done.
Qed.

Lemma Remove_absent c k :
  items c !! k = None -> Remove k c = Some (false, c).
Proof. intros Hk. unfold Remove. gsimpl. rewrite Hk. gsimpl. by destruct c. Qed.

Lemma slots_ok_spec (m : gmap K nat) n (l : list (entry K V)) :
  slots_ok m n l = true -> forall i e, l !! i = Some e -> m !! key e = Some (n + i).
Proof.
  revert n. induction l as [|e0 l IH]; simpl; intros n Hok i e Hi; [done|].
  apply andb_prop in Hok as [Hb Hr].
  destruct i as [|i]; simpl in Hi.
  - injection Hi as <-. apply bool_decide_eq_true in Hb. by rewrite Nat.add_0_r.
  - rewrite (IH (S n) Hr i e Hi). f_equal. lia.
Qed.

Lemma wfb_wf c : wfb c = true -> wf c.
Proof.
  unfold wfb. intros Hb.
  apply andb_prop in Hb as [Hb H4]. apply andb_prop in Hb as [Hb H3].
  apply andb_prop in Hb as [H1 H2].
  split; [|split; [|split]].
  - intros k i Hki.
    assert (Hin : In (k, i) (map_to_list (items c))).
    { apply list_elem_of_In, elem_of_map_to_list. done. }
    rewrite forallb_forall in H1. specialize (H1 _ Hin). simpl in H1.
    destruct (data c !! i) as [e|] eqn:He; [|done].
    exists e. split; [done|]. by apply bool_decide_eq_true in H1.
  - intros i e He. exact (slots_ok_spec _ 0 _ H2 i e He).
  - by apply Nat.eqb_eq in H3.
  - by apply Z.leb_le in H4.
Qed.

Lemma Get_miss (vzero : V) c k :
  items c !! k = None -> Get vzero k c = Some ((vzero, false), c).
Proof. intros Hk. unfold Get. gsimpl. rewrite Hk. gsimpl. by destruct c. Qed.

Lemma Get_mismatch (vzero : V) c k i e :
  items c !! k = Some i -> data c !! i = Some e -> key e <> k ->
  Get vzero k c = Some ((vzero, false), c).
Proof.
  intros Hk He Hne. unfold Get. gsimpl. rewrite Hk. gsimpl. rewrite He. gsimpl.
  rewrite decide_False by done. gsimpl. by destruct c.
Qed.

Lemma Add_size0 c k v base j :
  size c = 0%Z -> items c !! k = None ->
  Add k v base j c =
    Some (false, mkLRU (items c) (data c) (wrap64 (next_stamp c + 1)) (size c)
                       (onEvict c) (evictLog c)).
Proof.
  intros Hs Hk. unfold Add, getCounter, next_stamp. gsimpl.
  destruct (counter c =? 0)%Z; gsimpl; rewrite Hk, Hs; gsimpl; done.
Qed.

Lemma Add_full_empty c k v base j :
  items c = ∅ -> size c <> 0%Z -> Z.of_nat (length (data c)) = size c ->
  Add k v base j c = None.
Proof.
  intros Hk Hs Hl. apply Z.eqb_neq in Hs.
  unfold Add, getCounter, findOldest. gsimpl.
  destruct (counter c =? 0)%Z; gsimpl; rewrite Hk, Hs, Hl, Z.eqb_refl; gsimpl; done.
Qed.

Lemma insert_desc_length (e : entry K V) l : length (insert_desc e l) = S (length l).
Proof.
  induction l as [|x l IH]; simpl; [done|].
  destruct (lastUsed x <=? lastUsed e)%Z; simpl; [done|]. by rewrite IH.
Qed.

Lemma sort_desc_length (l : list (entry K V)) : length (sort_desc l) = length l.
Proof. induction l as [|e l IH]; simpl; [done|]. rewrite insert_desc_length. by f_equal. Qed.

Lemma insert_desc_hd (x e : entry K V) l :
  stamp_desc x e -> HdRel stamp_desc x l -> HdRel stamp_desc x (insert_desc e l).
Proof.
  destruct l as [|y l]; simpl; intros Hxe Hhd; [by constructor|].
  destruct (lastUsed y <=? lastUsed e)%Z; constructor; [done|].
  by inversion Hhd.
Qed.

Lemma insert_desc_sorted (e : entry K V) l :
  Sorted stamp_desc l -> Sorted stamp_desc (insert_desc e l).
Proof.
  induction l as [|x l IH]; simpl; intros Hs; [by repeat constructor|].
  destruct (Z.leb_spec (lastUsed x) (lastUsed e)) as [Hle | Hgt].
  - constructor; [done|]. constructor. unfold stamp_desc. lia.
  - apply Sorted_inv in Hs as [Hs Hhd]. constructor; [by apply IH|].
    apply insert_desc_hd; [unfold stamp_desc; lia | done].
Qed.

Lemma sort_desc_sorted (l : list (entry K V)) : Sorted stamp_desc (sort_desc l).
Proof. induction l as [|e l IH]; simpl; [constructor|]. by apply insert_desc_sorted. Qed.

Lemma Resize_keep (kzero : K) (vzero : V) c sz :
  (Z.of_nat (map_len (items c)) <= sz)%Z -> (Z.of_nat (length (data c)) <= sz)%Z ->
  Resize kzero vzero sz c =
    Some (0%Z, mkLRU (reindex (items c) 0 (sort_desc (data c))) (sort_desc (data c))
                     (counter c) sz (onEvict c) (evictLog c)).
Proof.
  intros Hm Hl. unfold Resize. gsimpl.
  assert (Hd : Z.max 0 (Z.of_nat (map_len (items c)) - sz) = 0%Z) by lia.
  pose proof (sort_desc_length (data c)) as Hs.
  rewrite Hd, Hs. gsimpl.
  assert (Hb : (sz <? Z.of_nat (length (data c)))%Z = false) by (apply Z.ltb_ge; lia).
  rewrite Hb. change (Z.to_nat 0) with O. cbn [resize_evict]. gsimpl.
  rewrite Hs, Nat.sub_diag, app_nil_r, take_ge by lia. done.
Qed.

(** package lru: on a well-formed full cache of at most [randomProbes]
    entries, an [Add] of an absent key evicts an entry of least [lastUsed]. *)
Lemma Add_evicts_global_min c k v base j :
  wf c -> items c !! k = None -> map_len (items c) <= randomProbes ->
  Z.of_nat (map_len (items c)) = size c -> base < map_len (items c) ->
  exists off e c',
    data c !! off = Some e /\ Add k v base j c = Some (true, c') /\
    (forall i e', data c !! i = Some e' -> (lastUsed e <= lastUsed e')%Z) /\
    items c' = <[k := off]> (delete (key e) (items c)) /\
    data c' = <[off := mkEntry (next_stamp c) k v]> (data c) /\
    evictLog c' = log_after c e.
Proof.
  intros Hwf Hk HN Hfull Hb. pose proof (wf_map_len c Hwf) as Hlen.
  destruct (wf_probe c base Hwf Hb) as (off & p & e & Hsel & He & (_ & Hle & _)).
  assert (Hfull' : Z.of_nat (length (data c)) = size c) by (rewrite <- Hlen; exact Hfull).
  rewrite (Add_evict c k v base j off e Hk) by (exact Hsel || exact He || exact Hfull' || lia).
  exists off, e. eexists. split; [done|]. split; [done|].
  split; [|(repeat split); reflexivity].
  intros i e' Hi.
  assert (Hin : i ∈ probe_offsets (map_len (items c)) base).
  { apply probe_offsets_cover; [done|done|]. rewrite Hlen. by eapply lookup_lt_Some. }
  apply list_elem_of_lookup in Hin as [q Hq].
  specialize (Hle q i Hq). unfold stamp_at in Hle. rewrite He, Hi in Hle. exact Hle.
Qed.

(** C6 (package lru): [Resize(n)] with [n] at least the number of entries
    evicts nothing, returns [0], and leaves the storage as the stable
    sort of the old storage by descending [lastUsed], the map re-pointed at
    the sorted positions. No random draw enters: the positions are a
    function of the stamps, sorted, not shuffled. *)
Theorem Resize_sorts_without_shuffle (kzero : K) (vzero : V) c sz :
  (Z.of_nat (map_len (items c)) <= sz)%Z -> (Z.of_nat (length (data c)) <= sz)%Z ->
  Resize kzero vzero sz c =
    Some (0%Z, mkLRU (reindex (items c) 0 (sort_desc (data c))) (sort_desc (data c))
                     (counter c) sz (onEvict c) (evictLog c)) /\
  Sorted stamp_desc (sort_desc (data c)).
Proof.
  intros Hm Hl. split; [by apply Resize_keep | apply sort_desc_sorted].
Qed.

(** C8 (the [Cache] facade): [ContainsOrAdd(k, v)] returns [(true, false)]
    with the cache unchanged (no stamp refreshed) when [k] is present, and
    otherwise runs [Add(k, v)] and returns [(false, evicted)] with [Add]'s
    result and state. *)
Theorem ContainsOrAdd_spec c k v base j :
  ContainsOrAdd k v base j c =
    match items c !! k with
    | Some _ => Some ((true, false), c)
    | None => match Add k v base j c with
              | Some (ev, c') => Some ((false, ev), c')
              | None => None
              end
    end.
Proof.
  unfold ContainsOrAdd, Contains. gsimpl.
  destruct (items c !! k) eqn:Hk; gsimpl.
  - by destruct c.
  - destruct (Add k v base j c) as [[ev c']|]; done.
Qed.

End GenericProofs.

(** unfold the projections of package approxlru's cache *)
Ltac aproj :=
  repeat match goal with
  | |- context [Approx.items (Approx.mkLRU ?a ?b ?c ?d ?e ?f)] =>
      change (Approx.items (Approx.mkLRU a b c d e f)) with a
  | |- context [Approx.data (Approx.mkLRU ?a ?b ?c ?d ?e ?f)] =>
      change (Approx.data (Approx.mkLRU a b c d e f)) with b
  | |- context [Approx.counter (Approx.mkLRU ?a ?b ?c ?d ?e ?f)] =>
      change (Approx.counter (Approx.mkLRU a b c d e f)) with c
  | |- context [Approx.size (Approx.mkLRU ?a ?b ?c ?d ?e ?f)] =>
      change (Approx.size (Approx.mkLRU a b c d e f)) with d
  | |- context [Approx.onEvict (Approx.mkLRU ?a ?b ?c ?d ?e ?f)] =>
      change (Approx.onEvict (Approx.mkLRU a b c d e f)) with e
  | |- context [Approx.evictLog (Approx.mkLRU ?a ?b ?c ?d ?e ?f)] =>
      change (Approx.evictLog (Approx.mkLRU a b c d e f)) with f
  end.

(** unfold the monad and the slice/map helpers of package approxlru *)
Ltac asimpl :=
  cbv [bind get put ret lift panic Approx.load Approx.store Approx.setItem
       Approx.delItem Approx.callOnEvict Approx.with_items Approx.with_data
       Approx.with_counter Approx.with_log]; cbn; aproj; cbn.

Section ApproxProofs.
Context {V : Type} (vnil : V).
Import Approx.
Local Arguments Nat.ltb : simpl never.
Local Arguments Nat.eqb : simpl never.
Implicit Types (c : LRU (V:=V)).

Lemma Approx_Get_miss c k : items c !! k = None -> Get vnil k c = Some ((vnil, false), c).
Proof. intros Hk. unfold Get. asimpl. rewrite Hk. asimpl. by destruct c. Qed.

Lemma Approx_Get_mismatch c k i e :
  items c !! k = Some i -> data c !! i = Some e -> key e <> k ->
  Get vnil k c = Some ((vnil, false), c).
Proof.
  intros Hk He Hne. unfold Get. asimpl. rewrite Hk. asimpl. rewrite He. asimpl.
  rewrite decide_False by done. asimpl. by destruct c.
Qed.

Lemma Approx_Remove_present c k i e :
  items c !! k = Some i -> data c !! i = Some e -> lastUsed e <> 0%Z ->
  Remove vnil k c =
    Some (true, mkLRU (delete (key e) (items c)) (<[i := empty_entry vnil]> (data c))
                      (counter c) (size c) (onEvict c)
                      (if onEvict c then evictLog c ++ [(key e, value e)] else evictLog c)).
Proof.
  intros Hk He Hz. apply Z.eqb_neq in Hz.
  pose proof (lookup_lt_Some _ _ _ He) as Hi. apply Nat.ltb_lt in Hi.
  unfold Remove, removeElement. asimpl. rewrite Hk. asimpl. rewrite He. asimpl.
  rewrite Hz. asimpl. rewrite Hi. asimpl. destruct (onEvict c); asimpl; done.
Qed.

Lemma Approx_getCounter_ok c :
  (0 <= counter c < 2 ^ 63 - 1)%Z ->
  getCounter c =
    Some (if (counter c =? 0)%Z then 1%Z else counter c,
          mkLRU (items c) (data c) ((if (counter c =? 0)%Z then 1%Z else counter c) + 1)
                (size c) (onEvict c) (evictLog c)).
Proof.
  destruct c as [m d cnt sz ev lg]. cbn. intros Hc. unfold getCounter. asimpl.
  destruct (Z.eqb_spec cnt 0) as [H0|H0]; asimpl.
  - done.
  - assert (Hw : wrap64 (cnt + 1) = (cnt + 1)%Z).
    { unfold wrap64. rewrite Z.mod_small; lia. }
    rewrite Hw. destruct (Z.ltb_spec (cnt + 1) 0); [lia|]. asimpl. done.
Qed.


Lemma Approx_Add_size0 c k v pick base :
  size c = 0%Z -> items c !! k = None -> (0 <= counter c < 2 ^ 63 - 1)%Z ->
  Add vnil k v pick base c =
    Some (false, mkLRU (items c) (data c) ((if (counter c =? 0)%Z then 1%Z else counter c) + 1)
                       (size c) (onEvict c) (evictLog c)).
Proof.
  intros Hs Hk Hc. unfold Add. cbv [bind]. rewrite (Approx_getCounter_ok c Hc).
  asimpl. rewrite Hk, Hs. asimpl. done.
Qed.

Lemma Approx_removeElement_ok c i e :
  data c !! i = Some e ->
  removeElement vnil i e c =
    Some (tt, if (lastUsed e =? 0)%Z then c
              else mkLRU (delete (key e) (items c)) (<[i := empty_entry vnil]> (data c))
                         (counter c) (size c) (onEvict c)
                         (if onEvict c then evictLog c ++ [(key e, value e)] else evictLog c)).
Proof.
  intros He. pose proof (lookup_lt_Some _ _ _ He) as Hi. apply Nat.ltb_lt in Hi.
  unfold removeElement. destruct (lastUsed e =? 0)%Z; asimpl; [done|].
  rewrite Hi. asimpl. destruct (onEvict c); asimpl; done.
Qed.

Lemma Approx_removeOldest_eq c base off e :
  probe_select (data c) (map_len (items c)) base = Some (Some (off, e)) ->
  data c !! off = Some e ->
  removeOldest vnil base c =
    Some (Z.of_nat off,
          if (lastUsed e =? 0)%Z then c
          else mkLRU (delete (key e) (items c)) (<[off := empty_entry vnil]> (data c))
                     (counter c) (size c) (onEvict c)
                     (if onEvict c then evictLog c ++ [(key e, value e)] else evictLog c)).
Proof.
  intros Hsel He. unfold removeOldest. cbv [bind get lift ret]. rewrite Hsel.
  cbv beta iota. rewrite (Approx_removeElement_ok c off e He). done.
Qed.

Local Arguments removeOldest : simpl never.
Lemma Approx_Add_evict c k v pick base off e :
  items c !! k = None -> size c <> 0%Z -> Z.of_nat (length (data c)) = size c ->
  (0 <= counter c < 2 ^ 63 - 1)%Z ->
  probe_select (data c) (map_len (items c)) base = Some (Some (off, e)) ->
  data c !! off = Some e -> lastUsed e <> 0%Z ->
  Add vnil k v pick base c =
    Some (true, mkLRU (<[k := off]> (delete (key e) (items c)))
                      (<[off := mkEntry (if (counter c =? 0)%Z then 1%Z else counter c) k v]> (data c))
                      ((if (counter c =? 0)%Z then 1%Z else counter c) + 1)
                      (size c) (onEvict c)
                      (if onEvict c then evictLog c ++ [(key e, value e)] else evictLog c)).
Proof.
  intros Hk Hs Hl Hc Hsel He Hz.
  pose proof (lookup_lt_Some _ _ _ He) as Hi.
  destruct c as [m d cnt sz ev lg]. cbn in *.
  unfold Add. cbv [bind]. rewrite (Approx_getCounter_ok (mkLRU m d cnt sz ev lg) Hc). cbn.
  cbv [get]. cbn. rewrite Hk.
  rewrite (proj2 (Z.eqb_neq sz 0) Hs), Hl, Z.ltb_irrefl.
  set (n := if (cnt =? 0)%Z then 1%Z else cnt).
  rewrite (Approx_removeOldest_eq (mkLRU m d (n + 1) sz ev lg) base off e Hsel He). cbn.
  rewrite (proj2 (Z.eqb_neq _ 0) Hz).
  unfold storeZ. rewrite (proj2 (Z.ltb_ge (Z.of_nat off) 0)) by lia. rewrite Nat2Z.id.
  asimpl. rewrite length_insert. rewrite (proj2 (Nat.ltb_lt off (length d)) Hi). asimpl.
  rewrite list_insert_insert_eq. done.
Qed.


Lemma Approx_Remove_absent c k :
  items c !! k = None -> Remove vnil k c = Some (false, c).
Proof. intros Hk. unfold Remove. asimpl. rewrite Hk. asimpl. by destruct c. Qed.

Lemma Approx_removeOldest_first_min c base :
  base < map_len (items c) -> map_len (items c) <= length (data c) ->
  exists off p e c',
    data c !! off = Some e /\
    removeOldest vnil base c = Some (Z.of_nat off, c') /\
    first_min (data c) (probe_offsets (map_len (items c)) base) off p.
Proof.
  intros Hb Hl.
  destruct (probe_select_first_min (data c) (map_len (items c)) base ltac:(lia) Hl Hb)
    as (off & p & e & Hsel & He & Hm).
  exists off, p, e. eexists. split; [exact He|]. split; [|exact Hm].
  exact (Approx_removeOldest_eq c base off e Hsel He).
Qed.

Lemma Approx_Add_evicts_global_min c k v pick base :
  GenericWf.stamped (data c) -> map_len (items c) = length (data c) ->
  map_len (items c) <= randomProbes -> Z.of_nat (map_len (items c)) = size c ->
  items c !! k = None -> (0 <= counter c < 2 ^ 63 - 1)%Z -> base < map_len (items c) ->
  exists off e c',
    data c !! off = Some e /\ Add vnil k v pick base c = Some (true, c') /\
    (forall i e', data c !! i = Some e' -> (lastUsed e <= lastUsed e')%Z) /\
    items c' = <[k := off]> (delete (key e) (items c)) /\
    data c' = <[off := mkEntry (if (counter c =? 0)%Z then 1%Z else counter c) k v]> (data c) /\
    evictLog c' = (if onEvict c then evictLog c ++ [(key e, value e)] else evictLog c).
Proof.
  intros Hst Hlen HN Hfull Hk Hc Hb.
  destruct (probe_select_first_min (data c) (map_len (items c)) base ltac:(lia) ltac:(lia) Hb)
    as (off & p & e & Hsel & He & (_ & Hle & _)).
  assert (Hz : lastUsed e <> 0%Z) by exact (Forall_lookup_1 _ _ _ _ Hst He).
  rewrite (Approx_Add_evict c k v pick base off e Hk ltac:(lia) ltac:(lia) Hc Hsel He Hz).
  exists off, e. eexists. split; [exact He|]. split; [reflexivity|].
  split; [|repeat split].
  intros i e' Hi.
  assert (Hin : i ∈ probe_offsets (map_len (items c)) base).
  { apply probe_offsets_cover; [done|done|]. rewrite Hlen. by eapply lookup_lt_Some. }
  apply list_elem_of_lookup in Hin as [q Hq].
  specialize (Hle q i Hq). unfold stamp_at in Hle. rewrite He, Hi in Hle. exact Hle.
Qed.

End ApproxProofs.

Section BothEngines.
Context {K : Type} `{Countable K} {V : Type} (vzero : V).
Import GenericWf.

(** C10 (both engines): [Get(k)] of a key absent from the map returns the
    zero value and [found = false] and leaves the whole cache, its counter
    included, unchanged. *)
Theorem Get_miss_frame (c : Generic.LRU (K:=K) (V:=V)) k (ca : Approx.LRU (V:=V)) ka :
  Generic.items c !! k = None -> Approx.items ca !! ka = None ->
  Generic.Get vzero k c = Some ((vzero, false), c) /\
  Approx.Get vzero ka ca = Some ((vzero, false), ca).
Proof. intros Hk Hka. split; [by apply Get_miss | by apply Approx_Get_miss]. Qed.

(** C7, as the code has it (both engines): a map entry pointing to a slot
    whose key does not match is not fatal in [Get]: it returns the zero
    value and [found = false] with the cache unchanged, a normal miss. Other
    inconsistencies do abort: in package lru, an [Add] of a new key on a
    full storage whose map is empty panics ("invariant broken"). *)
Theorem Get_mismatch_not_fatal
    (c : Generic.LRU (K:=K) (V:=V)) k i e (ca : Approx.LRU (V:=V)) ka ia ea
    (cb : Generic.LRU (K:=K) (V:=V)) kb v base j :
  Generic.items c !! k = Some i -> Generic.data c !! i = Some e -> key e <> k ->
  Approx.items ca !! ka = Some ia -> Approx.data ca !! ia = Some ea -> key ea <> ka ->
  Generic.items cb = ∅ -> Generic.size cb <> 0%Z ->
  Z.of_nat (length (Generic.data cb)) = Generic.size cb ->
  Generic.Get vzero k c = Some ((vzero, false), c) /\
  Approx.Get vzero ka ca = Some ((vzero, false), ca) /\
  Generic.Add kb v base j cb = None.
Proof.
  intros Hk He Hne Hka Hea Hnea Hb Hsb Hlb. split; [|split].
  - by eapply Get_mismatch.
  - by eapply Approx_Get_mismatch.
  - by apply Add_full_empty.
Qed.

(** C3, as the code has it: both constructors fail exactly when
    [size <= 0], so [size == 0] is rejected too. A cache of size 0 (as
    [Resize(0)] leaves one) accepts [Add] of an absent key in both packages:
    it returns [false] and stores nothing (map and storage unchanged); only
    the counter advances. In package approxlru this needs the counter below
    the int64 maximum, where [getCounter] panics. *)
Theorem NewLRU_rejects_nonpositive :
  (forall sz b, (exists msg, Generic.NewLRU (K:=K) (V:=V) sz b = Err msg) <-> (sz <= 0)%Z) /\
  (forall sz b, (exists msg, Approx.NewLRU (V:=V) sz b = Err msg) <-> (sz <= 0)%Z) /\
  (forall (c : Generic.LRU (K:=K) (V:=V)) k v base j,
     Generic.size c = 0%Z -> Generic.items c !! k = None ->
     Generic.Add k v base j c =
       Some (false, Generic.mkLRU (Generic.items c) (Generic.data c)
                      (wrap64 (next_stamp c + 1)) (Generic.size c)
                      (Generic.onEvict c) (Generic.evictLog c))) /\
  (forall (ca : Approx.LRU (V:=V)) k v pick base,
     Approx.size ca = 0%Z -> Approx.items ca !! k = None ->
     (0 <= Approx.counter ca < 2 ^ 63 - 1)%Z ->
     Approx.Add vzero k v pick base ca =
       Some (false, Approx.mkLRU (Approx.items ca) (Approx.data ca)
                      ((if (Approx.counter ca =? 0)%Z then 1%Z else Approx.counter ca) + 1)
                      (Approx.size ca) (Approx.onEvict ca) (Approx.evictLog ca))).
Proof.
  split; [|split; [|split]].
  - intros sz b. unfold Generic.NewLRU. destruct (Z.leb_spec sz 0).
    + split; [intros _; lia | intros _; eexists; reflexivity].
    + split; [intros [msg Hm]; discriminate | lia].
  - intros sz b. unfold Approx.NewLRU. destruct (Z.leb_spec sz 0).
    + split; [intros _; lia | intros _; eexists; reflexivity].
    + split; [intros [msg Hm]; discriminate | lia].
  - intros c k v base j. apply Add_size0.
  - intros ca k v pick base. apply Approx_Add_size0.
Qed.

(** C4, as the code has it. Package lru (the engine of [Cache]): [Remove]
    of a key at slot [i] moves the last entry [elast] into slot [i], drops
    the last slot (the storage shrinks by one, the capacity and the counter
    stay), deletes the key and records the callback; [Remove] of an absent
    key returns [false] and changes nothing. Package approxlru: [Remove]
    overwrites slot [i] with an empty entry in place, so the storage keeps
    its length; an absent key gives [false] and no change. *)
Theorem Remove_cases :
  (forall (c : Generic.LRU (K:=K) (V:=V)) k i e elast,
     wf c -> Generic.items c !! k = Some i -> Generic.data c !! i = Some e ->
     Generic.data c !! (length (Generic.data c) - 1) = Some elast ->
     exists c', Generic.Remove k c = Some (true, c') /\
       Generic.items c' = delete k (<[key elast := i]> (Generic.items c)) /\
       Generic.data c' = take (length (Generic.data c) - 1) (<[i := elast]> (Generic.data c)) /\
       length (Generic.data c') = length (Generic.data c) - 1 /\
       Generic.size c' = Generic.size c /\ Generic.counter c' = Generic.counter c /\
       Generic.evictLog c' = log_after c e) /\
  (forall (c : Generic.LRU (K:=K) (V:=V)) k,
     Generic.items c !! k = None -> Generic.Remove k c = Some (false, c)) /\
  (forall (ca : Approx.LRU (V:=V)) ka ia ea,
     Approx.items ca !! ka = Some ia -> Approx.data ca !! ia = Some ea ->
     key ea = ka -> lastUsed ea <> 0%Z ->
     exists ca', Approx.Remove vzero ka ca = Some (true, ca') /\
       Approx.items ca' = delete ka (Approx.items ca) /\
       Approx.data ca' = <[ia := Approx.empty_entry vzero]> (Approx.data ca) /\
       length (Approx.data ca') = length (Approx.data ca) /\
       Approx.size ca' = Approx.size ca /\
       Approx.evictLog ca' = (if Approx.onEvict ca
                              then Approx.evictLog ca ++ [(ka, value ea)]
                              else Approx.evictLog ca)) /\
  (forall (ca : Approx.LRU (V:=V)) ka,
     Approx.items ca !! ka = None -> Approx.Remove vzero ka ca = Some (false, ca)).
Proof.
  split; [|split; [|split]].
  - intros c k i e elast Hwf Hk He Hlast.
    rewrite (Remove_present c k i e elast Hwf Hk He Hlast).
    eexists. split; [done|]. cbn. repeat split.
    rewrite length_take, length_insert. lia.
  - intros c k. apply Remove_absent.
  - intros ca ka ia ea Hka Hea Hkea Hz.
    rewrite (Approx_Remove_present vzero ca ka ia ea Hka Hea Hz).
    eexists. split; [done|]. cbn. rewrite Hkea. repeat split.
    by rewrite length_insert.
  - intros ca ka. apply Approx_Remove_absent.
Qed.

(** C2 (both packages): on a cache of [N] live entries ([N] = [Len()], the
    storage holding at least [N] slots), for every draw [base] in [[0, N)],
    package lru's [findOldest] and package approxlru's [removeOldest] return
    the slot [off] that comes first, in the probing order
    [base, base+1, ..., base+7] modulo [N], among the probed slots of
    smallest [lastUsed]; [findOldest] leaves the cache unchanged. *)
Theorem eviction_probe_first_min :
  (forall (c : Generic.LRU (K:=K) (V:=V)) base,
     base < map_len (Generic.items c) -> map_len (Generic.items c) <= length (Generic.data c) ->
     exists off p,
       Generic.findOldest base c = Some (Some off, c) /\
       first_min (Generic.data c) (probe_offsets (map_len (Generic.items c)) base) off p) /\
  (forall (ca : Approx.LRU (V:=V)) base,
     base < map_len (Approx.items ca) -> map_len (Approx.items ca) <= length (Approx.data ca) ->
     exists off p ca',
       Approx.removeOldest vzero base ca = Some (Z.of_nat off, ca') /\
       first_min (Approx.data ca) (probe_offsets (map_len (Approx.items ca)) base) off p).
Proof.
  split.
  - intros c base Hb Hl.
    destruct (probe_select_first_min (Generic.data c) (map_len (Generic.items c)) base
                ltac:(lia) Hl Hb) as (off & p & e & Hsel & _ & Hm).
    exists off, p. rewrite findOldest_eq, Hsel. split; [reflexivity | exact Hm].
  - intros ca base Hb Hl.
    destruct (Approx_removeOldest_first_min vzero ca base Hb Hl) as (off & p & e & ca' & _ & Hr & Hm).
    exists off, p, ca'. split; [exact Hr | exact Hm].
Qed.

(** C9 (both packages): on a full cache of [N] live entries, every slot
    occupied, with [N <= randomProbes = 8], whatever the draw [base] in
    [[0, N)], an [Add] of an absent key evicts (returns [true]) an entry [e]
    whose [lastUsed] is the least of the whole storage: [e] leaves the map,
    the callback log gets [e], and the new entry takes its slot. Package lru
    asks for a well-formed cache; package approxlru for every slot stamped,
    one slot per key, and a counter below the int64 maximum. *)
Theorem evicting_Add_global_min :
  (forall (c : Generic.LRU (K:=K) (V:=V)) k v base j,
     wf c -> Generic.items c !! k = None -> map_len (Generic.items c) <= randomProbes ->
     Z.of_nat (map_len (Generic.items c)) = Generic.size c -> base < map_len (Generic.items c) ->
     exists off e c',
       Generic.data c !! off = Some e /\ Generic.Add k v base j c = Some (true, c') /\
       (forall i e', Generic.data c !! i = Some e' -> (lastUsed e <= lastUsed e')%Z) /\
       Generic.items c' = <[k := off]> (delete (key e) (Generic.items c)) /\
       Generic.data c' = <[off := mkEntry (next_stamp c) k v]> (Generic.data c) /\
       Generic.evictLog c' = log_after c e) /\
  (forall (ca : Approx.LRU (V:=V)) k v pick base,
     stamped (Approx.data ca) -> map_len (Approx.items ca) = length (Approx.data ca) ->
     map_len (Approx.items ca) <= randomProbes ->
     Z.of_nat (map_len (Approx.items ca)) = Approx.size ca ->
     Approx.items ca !! k = None -> (0 <= Approx.counter ca < 2 ^ 63 - 1)%Z ->
     base < map_len (Approx.items ca) ->
     exists off e ca',
       Approx.data ca !! off = Some e /\ Approx.Add vzero k v pick base ca = Some (true, ca') /\
       (forall i e', Approx.data ca !! i = Some e' -> (lastUsed e <= lastUsed e')%Z) /\
       Approx.items ca' = <[k := off]> (delete (key e) (Approx.items ca)) /\
       Approx.data ca' =
         <[off := mkEntry (if (Approx.counter ca =? 0)%Z then 1%Z else Approx.counter ca) k v]>
           (Approx.data ca) /\
       Approx.evictLog ca' = (if Approx.onEvict ca then Approx.evictLog ca ++ [(key e, value e)]
                              else Approx.evictLog ca)).
Proof.
  split.
  - intros c k v base j. apply Add_evicts_global_min.
  - intros ca k v pick base. apply Approx_Add_evicts_global_min.
Qed.

End BothEngines.

(* ------------------------------------------------------------------ *)
(** ** Invariants and behaviour of the other operations *)

Section WfLemmas.
Context {K : Type} `{Countable K} {V : Type}.
Import Generic GenericWf.
Implicit Types (m : gmap K nat) (d : list (entry K V)).

Implicit Types (cnt sz : Z) (ev : bool) (lg : list (K * V)).

Lemma wf_unique m d cnt sz ev lg i i' e e' :
  wf (mkLRU m d cnt sz ev lg) -> d !! i = Some e -> d !! i' = Some e' ->
  key e = key e' -> i = i'.
Proof.
  intros (_ & Hinv & _) He He' Hk. apply Hinv in He. apply Hinv in He'.
  cbn in *. rewrite Hk in He. congruence.
Qed.

Lemma wf_restamp m d cnt sz ev lg i e e' :
  wf (mkLRU m d cnt sz ev lg) -> d !! i = Some e -> key e' = key e ->
  wf (mkLRU m (<[i := e']> d) cnt sz ev lg).
Proof.
  intros Hwf He Hk. pose proof Hwf as (Hm & Hinv & Hl & Hs). cbn in *.
  pose proof (lookup_lt_Some _ _ _ He) as Hi.
  split; [|split; [|split]]; cbn; rewrite ?length_insert; try done.
  - intros k' p Hp. destruct (Hm k' p Hp) as (e0 & He0 & <-).
    destruct (decide (p = i)) as [->|Hne].
    + exists e'. rewrite list_lookup_insert_eq by done. split; [done|congruence].
    + exists e0. rewrite list_lookup_insert_ne by congruence. done.
  - intros x e0 Hx. apply list_lookup_insert_Some in Hx as [(<- & <- & _) | (Hne & Hx)].
    + rewrite Hk. by apply Hinv.
    + by apply Hinv.
Qed.

Lemma wf_swap m d cnt sz ev lg i j ei ej :
  wf (mkLRU m d cnt sz ev lg) -> d !! i = Some ei -> d !! j = Some ej -> i <> j ->
  wf (mkLRU (<[key ej := i]> (<[key ei := j]> m)) (<[j := ei]> (<[i := ej]> d)) cnt sz ev lg).
Proof.
  intros Hwf Hi Hj Hij. pose proof Hwf as (Hm & Hinv & Hl & Hs). cbn in *.
  pose proof (lookup_lt_Some _ _ _ Hi) as Hli. pose proof (lookup_lt_Some _ _ _ Hj) as Hlj.
  assert (Hkk : key ei <> key ej).
  { intros Hk. apply Hij. exact (wf_unique m d cnt sz ev lg i j ei ej Hwf Hi Hj Hk). }
  split; [|split; [|split]]; cbn; rewrite ?length_insert; try done.
  - intros k' p Hp.
    apply lookup_insert_Some in Hp as [(<- & <-) | (Hne1 & Hp)].
    { exists ej. rewrite list_lookup_insert_ne, list_lookup_insert_eq by done. done. }
    apply lookup_insert_Some in Hp as [(<- & <-) | (Hne2 & Hp)].
    { exists ei. rewrite list_lookup_insert_eq by (rewrite length_insert; done). done. }
    destruct (Hm k' p Hp) as (e0 & He0 & <-).
    assert (p <> i) by (intros ->; congruence).
    assert (p <> j) by (intros ->; congruence).
    exists e0. rewrite !list_lookup_insert_ne by congruence. done.
  - intros x e0 Hx.
    apply list_lookup_insert_Some in Hx as [(<- & <- & _) | (Hne & Hx)].
    { rewrite lookup_insert_ne, lookup_insert_eq by congruence. done. }
    apply list_lookup_insert_Some in Hx as [(<- & <- & _) | (Hne' & Hx)].
    { rewrite lookup_insert_eq. done. }
    assert (key e0 <> key ei).
    { intros Hk. apply Hne'. exact (wf_unique m d cnt sz ev lg i x ei e0 Hwf Hi Hx (eq_sym Hk)). }
    assert (key e0 <> key ej).
    { intros Hk. apply Hne. exact (wf_unique m d cnt sz ev lg j x ej e0 Hwf Hj Hx (eq_sym Hk)). }
    rewrite !lookup_insert_ne by congruence. by apply Hinv.
  - unfold map_len in *. rewrite !map_size_insert_Some; [done| |].
    + apply Hinv in Hi. by eexists.
    + destruct (decide (key ei = key ej)) as [Heq|Hne]; [congruence|].
      rewrite lookup_insert_ne by congruence. apply Hinv in Hj. by eexists.
Qed.

Lemma wf_drop_last m d cnt sz ev lg e :
  wf (mkLRU m d cnt sz ev lg) -> d !! (length d - 1) = Some e ->
  wf (mkLRU (delete (key e) m) (take (length d - 1) d) cnt sz ev lg).
Proof.
  intros Hwf He. pose proof Hwf as (Hm & Hinv & Hl & Hs). cbn in *.
  pose proof (lookup_lt_Some _ _ _ He) as Hle.
  split; [|split; [|split]]; cbn; rewrite ?length_take.
  - intros k' p Hp. apply lookup_delete_Some in Hp as [Hne Hp].
    destruct (Hm k' p Hp) as (e0 & He0 & <-).
    pose proof (lookup_lt_Some _ _ _ He0).
    assert (p <> length d - 1) by (intros ->; congruence).
    exists e0. rewrite lookup_take_Some. split; [split; [done|lia] | done].
  - intros x e0 Hx. apply lookup_take_Some in Hx as [Hx Hlt].
    assert (key e <> key e0).
    { intros Hk. pose proof (wf_unique m d cnt sz ev lg _ _ e e0 Hwf He Hx Hk). lia. }
    rewrite lookup_delete_ne by done. by apply Hinv.
  - unfold map_len in *. rewrite map_size_delete_Some; [lia|].
    apply Hinv in He. by eexists.
  - lia.
Qed.

Lemma wf_append m d cnt sz ev lg e :
  wf (mkLRU m d cnt sz ev lg) -> m !! key e = None -> (Z.of_nat (length d) < sz)%Z ->
  wf (mkLRU (<[key e := length d]> m) (d ++ [e]) cnt sz ev lg).
Proof.
  intros Hwf Hk Hlt. pose proof Hwf as (Hm & Hinv & Hl & Hs). cbn in *.
  split; [|split; [|split]]; cbn; rewrite ?length_app; cbn.
  - intros k' p Hp. apply lookup_insert_Some in Hp as [(<- & <-) | (Hne & Hp)].
    + exists e. rewrite lookup_app_r, Nat.sub_diag by lia. done.
    + destruct (Hm k' p Hp) as (e0 & He0 & <-). exists e0.
      rewrite lookup_app_l by (eapply lookup_lt_Some; done). done.
  - intros x e0 Hx. apply lookup_app_Some in Hx as [Hx | (Hge & Hx)].
    + assert (key e <> key e0) by (intros Hq; apply Hinv in Hx; congruence).
      rewrite lookup_insert_ne by done. by apply Hinv.
    + apply list_lookup_singleton_Some in Hx as [Hx0 <-].
      rewrite lookup_insert_eq. f_equal. lia.
  - unfold map_len in *. rewrite map_size_insert_None by done. lia.
  - lia.
Qed.

Lemma wf_evict m d cnt sz ev lg off e ent :
  wf (mkLRU m d cnt sz ev lg) -> m !! key ent = None -> d !! off = Some e ->
  wf (mkLRU (<[key ent := off]> (delete (key e) m)) (<[off := ent]> d) cnt sz ev lg).
Proof.
  intros Hwf Hk He. pose proof Hwf as (Hm & Hinv & Hl & Hs). cbn in *.
  pose proof (lookup_lt_Some _ _ _ He) as Hoff.
  assert (Hke : key e <> key ent) by (intros Hq; apply Hinv in He; congruence).
  split; [|split; [|split]]; cbn; rewrite ?length_insert; try done.
  - intros k' p Hp. apply lookup_insert_Some in Hp as [(<- & <-) | (Hne & Hp)].
    + exists ent. rewrite list_lookup_insert_eq by done. done.
    + apply lookup_delete_Some in Hp as [Hne' Hp].
      destruct (Hm k' p Hp) as (e0 & He0 & <-).
      assert (p <> off) by (intros ->; congruence).
      exists e0. rewrite list_lookup_insert_ne by congruence. done.
  - intros x e0 Hx. apply list_lookup_insert_Some in Hx as [(<- & <- & _) | (Hne & Hx)].
    + rewrite lookup_insert_eq. done.
    + assert (key e0 <> key ent) by (intros Hq; apply Hinv in Hx; congruence).
      assert (key e <> key e0).
      { intros Hq. apply Hne. exact (wf_unique m d cnt sz ev lg off x e e0 Hwf He Hx Hq). }
      rewrite lookup_insert_ne, lookup_delete_ne by congruence. by apply Hinv.
  - unfold map_len in *. rewrite map_size_insert_None.
    + rewrite map_size_delete_Some; [lia|]. apply Hinv in He. by eexists.
    + rewrite lookup_delete_ne by done. done.
Qed.
Lemma wf_resize m d cnt sz ev lg sz' :
  wf (mkLRU m d cnt sz ev lg) -> (Z.of_nat (length d) <= sz')%Z -> wf (mkLRU m d cnt sz' ev lg).
Proof. intros (Hm & Hinv & Hl & _) Hs. exact (conj Hm (conj Hinv (conj Hl Hs))). Qed.

Lemma wf_frame m d cnt sz ev lg cnt' ev' lg' :
  wf (mkLRU m d cnt sz ev lg) -> wf (mkLRU m d cnt' sz ev' lg').
Proof. intros Hw. exact Hw. Qed.
End WfLemmas.

Section ProbeSound.
Context {K V : Type} (data : list (entry K V)).
Lemma probe_scan_sound offOf js acc r :
  data !! acc.1 = Some acc.2 -> probe_scan data offOf js acc = Some r -> data !! r.1 = Some r.2.
Proof.
  revert acc. induction js as [|j js IH]; simpl; intros acc Hacc Hs.
  - congruence.
  - destruct (data !! offOf j) as [cand|] eqn:Hc; [|done].
    destruct (lastUsed cand <? lastUsed acc.2)%Z.
    + exact (IH (offOf j, cand) Hc Hs).
    + exact (IH acc Hacc Hs).
Qed.

Lemma probe_select_sound N base off e :
  probe_select data N base = Some (Some (off, e)) -> data !! off = Some e.
Proof.
  unfold probe_select. destruct (N <=? 0); [done|].
  destruct (data !! base) as [o|] eqn:Ho; [|done].
  destruct (base + randomProbes - 1 <? N);
    destruct (probe_scan _ _ _ _) as [[r re]|] eqn:Hs; cbn; intros Hr; try done;
    injection Hr as <- <-;
    exact (probe_scan_sound _ _ (base, o) (r, re) Ho Hs).
Qed.
End ProbeSound.

Section OpLemmas.
Context {K : Type} `{Countable K} {V : Type}.
Import Generic GenericWf.
Local Arguments Nat.ltb : simpl never.
Local Arguments Nat.eqb : simpl never.
Implicit Types (c : LRU (K:=K) (V:=V)).

Lemma Add_existing c k v base j i e :
  items c !! k = Some i -> data c !! i = Some e ->
  Add k v base j c =
    Some (false, mkLRU (items c) (<[i := mkEntry (next_stamp c) (key e) v]> (data c))
                       (wrap64 (next_stamp c + 1)) (size c) (onEvict c) (evictLog c)).
Proof.
  intros Hk He. pose proof (lookup_lt_Some _ _ _ He) as Hi. apply Nat.ltb_lt in Hi.
  unfold Add, getCounter, next_stamp. gsimpl.
  destruct (counter c =? 0)%Z; gsimpl; rewrite Hk; gsimpl; rewrite He; gsimpl;
    rewrite Hi; gsimpl; done.
Qed.

Lemma Get_hit (vzero : V) c k i e :
  items c !! k = Some i -> data c !! i = Some e -> key e = k ->
  Get vzero k c =
    Some ((value e, true),
          mkLRU (items c) (<[i := mkEntry (next_stamp c) (key e) (value e)]> (data c))
                (wrap64 (next_stamp c + 1)) (size c) (onEvict c) (evictLog c)).
Proof.
  intros Hk He Hke. pose proof (lookup_lt_Some _ _ _ He) as Hi. apply Nat.ltb_lt in Hi.
  unfold Get, getCounter, next_stamp. gsimpl. rewrite Hk. gsimpl. rewrite He. gsimpl.
  rewrite decide_True by done.
  destruct (counter c =? 0)%Z; gsimpl; rewrite Hi; gsimpl; done.
Qed.

Lemma Add_full_probe_fail c k v base j :
  items c !! k = None -> size c <> 0%Z -> Z.of_nat (length (data c)) = size c ->
  (forall p, probe_select (data c) (map_len (items c)) base <> Some (Some p)) ->
  Add k v base j c = None.
Proof.
  intros Hk Hs Hl Hp. apply Z.eqb_neq in Hs. unfold map_len in Hp.
  unfold Add, getCounter, findOldest. gsimpl.
  destruct (probe_select (data c) (base.size (items c)) base) as [[p|]|] eqn:Hq;
    [by destruct (Hp p) | |];
    destruct (counter c =? 0)%Z; gsimpl; rewrite Hk, Hs, Hl, Z.eqb_refl; gsimpl;
    rewrite Hq; gsimpl; done.
Qed.

Lemma Add_append_oob c k v base j :
  items c !! k = None -> size c <> 0%Z -> Z.of_nat (length (data c)) <> size c ->
  length (data c) < j -> Add k v base j c = None.
Proof.
  intros Hk Hs Hl Hj. apply Z.eqb_neq in Hs. apply Z.eqb_neq in Hl.
  assert (HjL : (length (data c) =? j) = false) by (apply Nat.eqb_neq; lia).
  assert (Hlast : (data c ++ [mkEntry (next_stamp c) k v]) !! length (data c)
                  = Some (mkEntry (next_stamp c) k v)).
  { rewrite lookup_app_r by lia. rewrite Nat.sub_diag. done. }
  assert (Hj' : (data c ++ [mkEntry (next_stamp c) k v]) !! j = None).
  { apply lookup_ge_None_2. rewrite length_app. simpl. lia. }
  unfold next_stamp in *.
  unfold Add, getCounter, addShuffled, swap. gsimpl.
  destruct (counter c =? 0)%Z; gsteps; done.
Qed.

Lemma next_stamp_nonzero c : next_stamp c <> 0%Z.
Proof. unfold next_stamp. destruct (Z.eqb_spec (counter c) 0); lia. Qed.

Lemma Add_wf c k v base j b c' :
  wf c -> Add k v base j c = Some (b, c') ->
  wf c' /\ (stamped (data c) -> stamped (data c')).
Proof.
  intros Hwf Hadd. pose proof (next_stamp_nonzero c) as Hn0.
  destruct c as [m d cnt sz ev lg].
  set (c := mkLRU m d cnt sz ev lg) in *.
  pose proof Hwf as (Hm & Hinv & Hl & Hs).
  destruct (items c !! k) as [i|] eqn:Hk.
  { destruct (Hm k i Hk) as (e & He & Hke).
    rewrite (Add_existing c k v base j i e Hk He) in Hadd. injection Hadd as <- <-.
    split.
    - eapply wf_frame. apply (wf_restamp _ _ _ _ _ _ i e); [exact Hwf | exact He | reflexivity].
    - intros Hst. apply Forall_insert; [exact Hst | exact Hn0]. }
  destruct (Z.eq_dec (size c) 0%Z) as [Hz|Hnz].
  { rewrite (Add_size0 c k v base j Hz Hk) in Hadd. injection Hadd as <- <-. split; [exact Hwf | done]. }
  destruct (Z.eq_dec (Z.of_nat (length (data c))) (size c)) as [Hf|Hnf].
  - destruct (probe_select (data c) (map_len (items c)) base) as [[[off e]|]|] eqn:Hp.
    + pose proof (probe_select_sound _ _ _ _ _ Hp) as He.
      rewrite (Add_evict c k v base j off e Hk Hnz Hf Hp He) in Hadd.
      injection Hadd as <- <-. split.
      * eapply wf_frame.
        exact (wf_evict _ _ _ _ _ _ off e (mkEntry (next_stamp c) k v) Hwf Hk He).
      * intros Hst. apply Forall_insert; [exact Hst | exact Hn0].
    + rewrite (Add_full_probe_fail c k v base j Hk Hnz Hf) in Hadd; [done|].
      intros p. rewrite Hp. done.
    + rewrite (Add_full_probe_fail c k v base j Hk Hnz Hf) in Hadd; [done|].
      intros p. rewrite Hp. done.
  - assert (Hlt : (Z.of_nat (length (data c)) < size c)%Z) by lia.
    pose proof (wf_append _ _ _ _ _ _ (mkEntry (next_stamp c) k v) Hwf Hk Hlt) as Hw1.
    assert (Hst1 : stamped (data c) -> stamped (data c ++ [mkEntry (next_stamp c) k v])).
    { intros Hst. apply Forall_app; split; [exact Hst | constructor; [exact Hn0 | constructor]]. }
    destruct (lt_eq_lt_dec j (length (data c))) as [[Hj | ->] | Hj].
    + destruct (lookup_lt_is_Some_2 (data c) j Hj) as [ej Hej].
      rewrite (Add_append_swap c k v base j ej Hk Hnz Hnf Hj Hej) in Hadd.
      injection Hadd as <- <-. split.
      * eapply wf_frame.
        apply (wf_swap _ _ _ _ _ _ (length (data c)) j (mkEntry (next_stamp c) k v) ej Hw1).
        all: subst c; cbn [data] in *.
        -- rewrite lookup_app_r, Nat.sub_diag by lia. done.
        -- rewrite lookup_app_l by lia. done.
        -- lia.
      * intros Hst. apply Forall_insert; [apply Forall_insert; [exact (Hst1 Hst)|] | exact Hn0].
        exact (Forall_lookup_1 _ _ _ _ Hst Hej).
    + rewrite (Add_append_last c k v base Hk Hnz Hnf) in Hadd.
      injection Hadd as <- <-. split; [eapply wf_frame; exact Hw1 | exact Hst1].
    + rewrite (Add_append_oob c k v base j Hk Hnz Hnf Hj) in Hadd. done.
Qed.

Lemma Remove_wf c k b c' :
  wf c -> stamped (data c) -> Remove k c = Some (b, c') -> wf c' /\ stamped (data c').
Proof.
  intros Hwf Hst Hrm.
  destruct (items c !! k) as [i|] eqn:Hk; [|rewrite (Remove_absent c k Hk) in Hrm; injection Hrm as <- <-; done].
  pose proof Hwf as (Hm & Hinv & Hl & Hs).
  destruct (Hm k i Hk) as (e & He & Hke).
  pose proof (lookup_lt_Some _ _ _ He) as Hi.
  destruct (lookup_lt_is_Some_2 (data c) (length (data c) - 1)) as [elast Hlast]; [lia|].
  rewrite (Remove_present c k i e elast Hwf Hk He Hlast) in Hrm. injection Hrm as <- <-.
  destruct c as [m d cnt sz ev lg]. cbn in *.
  split.
  2:{ apply Forall_take, Forall_insert; [exact Hst|]. exact (Forall_lookup_1 _ _ _ _ Hst Hlast). }
  eapply wf_frame.
  destruct (Nat.eq_dec i (length d - 1)) as [Heq | Hne].
  - subst i. assert (elast = e) as -> by congruence.
    rewrite list_insert_id by done. rewrite <- Hke.
    rewrite insert_id by (apply Hinv; exact He).
    exact (wf_drop_last _ _ _ _ _ _ e Hwf He).
  - assert (Hkl : key elast <> k).
    { intros Hkl. apply Hinv in Hlast. rewrite Hkl, Hk in Hlast. congruence. }
    pose proof (wf_swap _ _ _ _ _ _ i (length d - 1) e elast Hwf He Hlast Hne) as Hw1.
    pose proof (wf_drop_last _ _ _ _ _ _ e Hw1) as Hw2. cbn in Hw2.
    rewrite length_insert, length_insert in Hw2.
    rewrite list_lookup_insert_eq in Hw2 by (rewrite length_insert; lia).
    specialize (Hw2 eq_refl).
    rewrite take_insert_ge in Hw2 by lia. rewrite Hke in Hw2.
    rewrite insert_insert_ne, delete_insert_eq in Hw2 by congruence.
    exact Hw2.
Qed.

Lemma Get_wf (vzero : V) c k r c' :
  wf c -> stamped (data c) -> Get vzero k c = Some (r, c') -> wf c' /\ stamped (data c').
Proof.
  intros Hwf Hst Hg.
  destruct (items c !! k) as [i|] eqn:Hk; [|rewrite (Get_miss vzero c k Hk) in Hg; injection Hg as <- <-; done].
  pose proof Hwf as (Hm & _).
  destruct (Hm k i Hk) as (e & He & Hke).
  rewrite (Get_hit vzero c k i e Hk He Hke) in Hg. injection Hg as <- <-.
  split.
  - destruct c as [m d cnt sz ev lg]. eapply wf_frame.
    apply (wf_restamp _ _ _ _ _ _ i e); [exact Hwf | exact He | reflexivity].
  - apply Forall_insert; [exact Hst | exact (next_stamp_nonzero c)].
Qed.

Lemma purge_calls_log l c :
  (forall ki, ki ∈ l -> is_Some (data c !! ki.2)) ->
  purge_calls l c =
    Some (tt, mkLRU (items c) (data c) (counter c) (size c) (onEvict c) (evictLog c ++
      (if onEvict c then
         flat_map (fun ki => match data c !! ki.2 with
                             | Some e => if (0 <? lastUsed e)%Z then [(ki.1, value e)] else []
                             | None => []
                             end) l
       else []))).
Proof.
  revert c. induction l as [|[k i] l IH]; intros c Hl; cbn [purge_calls flat_map].
  { destruct c as [? ? ? ? [] ?]; cbn; rewrite app_nil_r; done. }
  destruct (Hl (k, i) (list_elem_of_here _ _)) as [e He]. cbn in He.
  assert (Hl' : forall ki, ki ∈ l -> is_Some (data c !! ki.2))
    by (intros ki Hki; apply Hl; by apply list_elem_of_further).
  unfold load. gsimpl. rewrite He. gsimpl.
  destruct (0 <? lastUsed e)%Z.
  - destruct (onEvict c) eqn:Hev; gsimpl.
    + rewrite IH by exact Hl'. gsimpl. rewrite <- app_assoc. done.
    + gsimpl. rewrite IH by exact Hl'. gsimpl. rewrite Hev. by destruct c.
  - gsimpl. rewrite IH by exact Hl'. done.
Qed.
Lemma Purge_eq c :
  (forall k i, items c !! k = Some i -> is_Some (data c !! i)) ->
  Purge c =
    Some (tt, mkLRU ∅ [] (counter c) (size c) (onEvict c) (evictLog c ++
      (if onEvict c then
         flat_map (fun ki => match data c !! ki.2 with
                             | Some e => if (0 <? lastUsed e)%Z then [(ki.1, value e)] else []
                             | None => []
                             end) (map_to_list (items c))
       else []))).
Proof.
  intros Hs. unfold Purge. gsimpl.
  destruct (onEvict c) eqn:Hev; gsimpl.
  - rewrite purge_calls_log.
    + gsimpl. rewrite Hev. done.
    + intros [k i] Hki. apply elem_of_map_to_list in Hki. exact (Hs k i Hki).
  - rewrite app_nil_r, Hev. done.
Qed.

Lemma map_to_list_slots c :
  wf c -> map_to_list (items c) ≡ₚ imap (fun i e => (key e, i)) (data c).
Proof.
  intros (Hm & Hinv & _).
  apply NoDup_Permutation.
  - apply NoDup_map_to_list.
  - apply NoDup_alt. intros i j [k n] Hi Hj.
    rewrite list_lookup_imap in Hi, Hj.
    destruct (data c !! i) eqn:Ei; destruct (data c !! j) eqn:Ej; cbn in *; congruence.
  - intros [k i]. rewrite elem_of_map_to_list, list_elem_of_lookup. split.
    + intros Hk. destruct (Hm k i Hk) as (e & He & Hke). exists i.
      rewrite list_lookup_imap, He. cbn. by rewrite Hke.
    + intros (n & Hn). rewrite list_lookup_imap in Hn.
      destruct (data c !! n) as [e|] eqn:He; cbn in Hn; [|done].
      injection Hn as <- <-. exact (Hinv n e He).
Qed.

Lemma purge_log_slots (d l : list (entry K V)) n :
  (forall i, d !! (n + i) = l !! i) ->
  flat_map (fun ki => match d !! ki.2 with
                      | Some e => if (0 <? lastUsed e)%Z then [(ki.1, value e)] else []
                      | None => []
                      end) (imap (fun i e => (key e, n + i)) l) =
  map (fun e => (key e, value e)) (filter (fun e => (0 < lastUsed e)%Z) l).
Proof.
  revert n. induction l as [|e l IH]; intros n Hl; [done|].
  rewrite imap_cons. cbn [flat_map]. cbn [snd fst].
  rewrite (Hl 0). cbn [lookup list_lookup]. rewrite filter_cons.
  rewrite (imap_ext _ (fun i e => (key e, S n + i))) by (intros; unfold compose; cbn; f_equal; lia).
  rewrite (IH (S n)) by (intros i; replace (S n + i) with (n + S i) by lia; exact (Hl (S i))).
  destruct (Z.ltb_spec 0 (lastUsed e)); rewrite ?decide_True, ?decide_False by lia; done.
Qed.

Lemma Purge_log_perm c :
  wf c ->
  flat_map (fun ki => match data c !! ki.2 with
                      | Some e => if (0 <? lastUsed e)%Z then [(ki.1, value e)] else []
                      | None => []
                      end) (map_to_list (items c)) ≡ₚ
  map (fun e => (key e, value e)) (filter (fun e => (0 < lastUsed e)%Z) (data c)).
Proof.
  intros Hwf. rewrite (Permutation_flat_map _ (map_to_list_slots c Hwf)).
  pose proof (purge_log_slots (data c) (data c) 0 (fun i => eq_refl)) as Hp. cbn [Nat.add] in Hp. rewrite Hp. done.
Qed.
Lemma insert_desc_perm (e : entry K V) l : insert_desc e l ≡ₚ e :: l.
Proof.
  induction l as [|x l IH]; simpl; [done|].
  destruct (lastUsed x <=? lastUsed e)%Z; [done|].
  rewrite IH. apply perm_swap.
Qed.

Lemma sort_desc_perm (l : list (entry K V)) : sort_desc l ≡ₚ l.
Proof. induction l as [|e l IH]; simpl; [done|]. by rewrite insert_desc_perm, IH. Qed.

Lemma reindex_other (m : gmap K nat) n (l : list (entry K V)) k :
  Forall (fun e => key e <> k) l -> reindex m n l !! k = m !! k.
Proof.
  revert m n. induction l as [|e l IH]; intros m n Hl; simpl; [done|].
  apply Forall_cons in Hl as [He Hl]. rewrite IH by exact Hl.
  destruct (lastUsed e =? 0)%Z; [done|]. by rewrite lookup_insert_ne.
Qed.

Lemma reindex_at (m : gmap K nat) n (l : list (entry K V)) i e :
  NoDup (map key l) -> l !! i = Some e -> lastUsed e <> 0%Z ->
  reindex m n l !! key e = Some (n + i).
Proof.
  revert m n i. induction l as [|x l IH]; intros m n i Hnd Hi He0; [done|].
  simpl in Hnd. apply NoDup_cons in Hnd as [Hx Hnd]. simpl.
  destruct i as [|i]; simpl in Hi.
  - injection Hi as ->. rewrite reindex_other.
    + apply Z.eqb_neq in He0. rewrite He0. rewrite lookup_insert_eq. f_equal. lia.
    + apply Forall_forall. intros y Hy Hye. apply Hx. rewrite <- Hye.
      apply list_elem_of_In, in_map, list_elem_of_In, Hy.
  - rewrite (IH _ (S n) i Hnd Hi He0). f_equal. lia.
Qed.

Lemma wf_keys_nodup c : wf c -> NoDup (map key (data c)).
Proof.
  intros Hwf. apply NoDup_alt. intros i j k Hi Hj.
  rewrite list_lookup_fmap in Hi, Hj.
  destruct (data c !! i) as [ei|] eqn:Ei; destruct (data c !! j) as [ej|] eqn:Ej; try done.
  injection Hi as Hi. injection Hj as Hj. destruct c as [m d cnt sz ev lg].
  apply (wf_unique _ _ _ _ _ _ i j ei ej Hwf Ei Ej). congruence.
Qed.

Lemma map_len_dom (m1 m2 : gmap K nat) :
  (forall k, is_Some (m1 !! k) <-> is_Some (m2 !! k)) -> map_len m1 = map_len m2.
Proof.
  intros Hd. unfold map_len. rewrite <- !size_dom.
  f_equal. apply set_eq. intros k. rewrite !elem_of_dom. apply Hd.
Qed.

Lemma wf_reindex c :
  wf c -> stamped (data c) ->
  wf (mkLRU (reindex (items c) 0 (sort_desc (data c))) (sort_desc (data c))
            (counter c) (size c) (onEvict c) (evictLog c)).
Proof.
  intros Hwf Hst. pose proof Hwf as (Hm & Hinv & Hl & Hs).
  set (s := sort_desc (data c)).
  assert (Hperm : s ≡ₚ data c) by apply sort_desc_perm.
  assert (Hnd : NoDup (map key s)) by (rewrite Hperm; exact (wf_keys_nodup c Hwf)).
  assert (Hsst : stamped s) by (unfold stamped; rewrite Hperm; exact Hst).
  assert (Hkey : forall k i, items c !! k = Some i -> exists p e, s !! p = Some e /\ key e = k).
  { intros k i Hk. destruct (Hm k i Hk) as (e & He & Hke).
    assert (Hin : e ∈ s) by (rewrite Hperm; exact (list_elem_of_lookup_2 _ _ _ He)).
    apply list_elem_of_lookup in Hin as [p Hp]. eauto. }
  assert (Hat : forall p e, s !! p = Some e -> reindex (items c) 0 s !! key e = Some p).
  { intros p e Hp. exact (reindex_at _ 0 s p e Hnd Hp (Forall_lookup_1 _ _ _ _ Hsst Hp)). }
  split; [|split; [|split]]; cbn.
  - intros k i Hk.
    destruct (decide (Forall (fun e => key e <> k) s)) as [Hno | Hyes].
    + rewrite reindex_other in Hk by exact Hno.
      destruct (Hkey k i Hk) as (p & e & Hp & Hke).
      exfalso. exact (Forall_lookup_1 _ _ _ _ Hno Hp Hke).
    + apply not_Forall_Exists in Hyes; [|intros x; apply _].
      apply Exists_exists in Hyes as (e & He & Hke). apply dec_stable in Hke.
      apply list_elem_of_lookup in He as [p Hp].
      rewrite <- Hke, (Hat p e Hp) in Hk. injection Hk as <-. eauto.
  - exact Hat.
  - rewrite (Permutation_length Hperm), <- Hl. apply map_len_dom. intros k. split.
    + intros [i Hk].
      destruct (decide (Forall (fun e => key e <> k) s)) as [Hno | Hyes].
      * rewrite reindex_other in Hk by exact Hno. by exists i.
      * apply not_Forall_Exists in Hyes; [|intros x; apply _].
        apply Exists_exists in Hyes as (e & He & Hke). apply dec_stable in Hke.
        assert (He' : e ∈ data c) by (rewrite <- Hperm; exact He).
        apply list_elem_of_lookup in He' as [p Hp].
        rewrite <- Hke. eexists. exact (Hinv p e Hp).
    + intros [i Hk]. destruct (Hkey k i Hk) as (p & e & Hp & <-).
      eexists. exact (Hat p e Hp).
  - rewrite (Permutation_length Hperm). exact Hs.
Qed.
Lemma removeElement_last c e :
  wf c -> data c !! (length (data c) - 1) = Some e ->
  removeElement (length (data c) - 1) e true c =
    Some (tt, mkLRU (delete (key e) (items c)) (take (length (data c) - 1) (data c))
                    (counter c) (size c) (onEvict c) (log_after c e)).
Proof.
  intros Hwf He. pose proof Hwf as (Hm & Hinv & Hl & Hs).
  pose proof (lookup_lt_Some _ _ _ He) as Hi.
  assert (Hge : (Z.of_nat (length (data c) - 1) >=? size c)%Z = false)
    by (rewrite Z.geb_leb; apply Z.leb_gt; lia).
  assert (HL0 : (length (data c) =? 0) = false) by (apply Nat.eqb_neq; lia).
  unfold removeElement, swap, log_after. gsimpl. rewrite Hge, HL0. gsimpl.
  rewrite Nat.eqb_refl. gsimpl.
  destruct (onEvict c); gsimpl; done.
Qed.

Lemma resize_evict_spec (o : nat) n : forall i c,
  wf c -> length (data c) + i = o -> n <= length (data c) ->
  exists c',
    resize_evict (Z.of_nat o) i n c = Some (tt, c') /\ wf c' /\
    data c' = take (length (data c) - n) (data c) /\
    counter c' = counter c /\ size c' = size c /\ onEvict c' = onEvict c /\
    evictLog c' = evictLog c ++
      (if onEvict c then map (fun e => (key e, value e)) (rev (drop (length (data c) - n) (data c)))
       else []).
Proof.
  induction n as [|n IH]; intros i c Hwf Ho Hn; cbn [resize_evict].
  { exists c. rewrite Nat.sub_0_r, take_ge, drop_ge by lia. cbn.
    refine (conj eq_refl (conj Hwf (conj eq_refl (conj eq_refl (conj eq_refl (conj eq_refl _)))))).
    destruct (onEvict c); by rewrite app_nil_r. }
  set (L := length (data c)) in *.
  assert (Hj : (Z.of_nat o - 1 - Z.of_nat i <? 0)%Z = false) by (apply Z.ltb_ge; lia).
  assert (Hjn : Z.to_nat (Z.of_nat o - 1 - Z.of_nat i) = L - 1) by lia.
  rewrite Hj, Hjn.
  destruct (lookup_lt_is_Some_2 (data c) (L - 1)) as [e He]; [lia|].
  assert (Hld : load (L - 1) c = Some (e, c)) by (unfold load; gsimpl; rewrite He; done).
  pose proof (removeElement_last c e Hwf He) as Hrem. fold L in Hrem.
  cbv [bind]. rewrite Hld. cbv beta iota. rewrite Hrem. cbv beta iota.
  assert (HL1 : length (take (L - 1) (data c)) = L - 1) by (rewrite length_take; lia).
  destruct (IH (S i) (mkLRU (delete (key e) (items c)) (take (L - 1) (data c)) (counter c)
                            (size c) (onEvict c) (log_after c e)))
    as (c' & Hrun & Hwf' & Hd & Hc & Hsz & Hev & Hlog); cbn [data]; [| lia | lia |].
  { destruct c as [m d cnt sz ev lg]. eapply wf_frame. exact (wf_drop_last _ _ _ _ _ _ e Hwf He). }
  exists c'. rewrite Hrun. split; [done|]. split; [done|].
  cbn [data counter size onEvict evictLog] in Hd, Hc, Hsz, Hev, Hlog. rewrite HL1 in Hd, Hlog.
  assert (Hsplit : data c = take (L - 1) (data c) ++ [e]).
  { rewrite <- (take_drop (L - 1) (data c)) at 1. f_equal.
    rewrite (drop_S _ e (L - 1)) by exact He. rewrite drop_ge by lia. done. }
  split; [rewrite Hd, take_take; f_equal; lia|].
  split; [done|]. split; [done|]. split; [done|].
  rewrite Hlog. unfold log_after.
  destruct (onEvict c); [|done].
  rewrite <- app_assoc. f_equal.
  replace (L - S n) with (L - 1 - n) by lia.
  rewrite Hsplit at 2. rewrite drop_app_le by lia. rewrite rev_app_distr. done.
Qed.
Lemma Resize_spec (kzero : K) (vzero : V) c sz :
  wf c -> stamped (data c) -> (0 <= sz)%Z ->
  exists c',
    Resize kzero vzero sz c = Some (Z.of_nat (length (data c) - Z.to_nat sz), c') /\
    wf c' /\ stamped (data c') /\
    data c' = take (Z.to_nat sz) (sort_desc (data c)) /\
    counter c' = counter c /\ size c' = sz /\ onEvict c' = onEvict c /\
    evictLog c' = evictLog c ++
      (if onEvict c then map (fun e => (key e, value e)) (rev (drop (Z.to_nat sz) (sort_desc (data c))))
       else []).
Proof.
  intros Hwf Hst Hsz.
  pose proof (wf_map_len c Hwf) as Hml.
  set (s := sort_desc (data c)).
  assert (Hls : length s = length (data c)) by apply sort_desc_length.
  assert (Hperm : s ≡ₚ data c) by apply sort_desc_perm.
  set (c0 := with_items (with_data c s) (reindex (items c) 0 s)).
  assert (Hwf0 : wf c0) by exact (wf_reindex c Hwf Hst).
  destruct (resize_evict_spec (length s) (length (data c) - Z.to_nat sz) 0 c0 Hwf0)
    as (c1 & Hrun & Hwf1 & Hd1 & Hc1 & Hs1 & He1 & Hl1); cbn [c0 with_items with_data data];
    [lia | lia |].
  unfold Resize. cbv [bind get put]. cbv beta iota zeta. fold s. fold c0.
  rewrite Hml.
  replace (Z.to_nat (Z.max 0 (Z.of_nat (length (data c)) - sz))) with (length (data c) - Z.to_nat sz) by lia.
  rewrite Hrun. cbv beta iota.
  change (data c0) with s in Hd1, Hl1. change (evictLog c0) with (evictLog c) in Hl1.
  change (onEvict c0) with (onEvict c) in Hl1, He1. change (counter c0) with (counter c) in Hc1.
  rewrite Hls in Hd1, Hl1 |- *.
  assert (Hst1 : stamped (data c1)).
  { rewrite Hd1. apply Forall_take. unfold stamped. rewrite Hperm. exact Hst. }
  assert (Hback : forall n, length (data c1) = n ->
            take n (data c1 ++ repeat (mkEntry 0%Z kzero vzero) (length (data c) - length (data c1)))
            = data c1).
  { intros n <-. apply take_app_length. }
  assert (Hret : Z.max 0 (Z.of_nat (length (data c)) - sz) = Z.of_nat (length (data c) - Z.to_nat sz)) by lia.
  exists (with_size c1 sz).
  assert (Hlen1 : length (data c1) = Nat.min (Z.to_nat sz) (length (data c))).
  { rewrite Hd1, length_take, Hls. lia. }
  assert (Hdata : data c1 = take (Z.to_nat sz) s).
  { rewrite Hd1. destruct (Nat.le_gt_cases (Z.to_nat sz) (length (data c))); [f_equal; lia | rewrite !take_ge by lia; done]. }
  assert (Hwf' : wf (with_size c1 sz)).
  { destruct c1 as [m1 d1 cnt1 sz1 ev1 lg1]. cbn in *.
    apply (wf_resize _ _ _ _ _ _ sz Hwf1). lia. }
  destruct (Z.ltb_spec sz (Z.of_nat (length (data c)))) as [Hlt | Hge].
  - rewrite (proj2 (Z.ltb_ge sz 0) Hsz). cbv [ret with_data with_size].
    destruct c1 as [m1 d1 cnt1 sz1 ev1 lg1]. cbn [Generic.data] in *.
    rewrite Hback by lia. rewrite Hret.
    split; [done|]. split; [exact Hwf'|]. split; [exact Hst1|]. split; [exact Hdata|].
    cbn. split; [exact Hc1|]. split; [done|]. split; [exact He1|]. cbn in Hl1. rewrite Hl1.
    replace (length (data c) - (length (data c) - Z.to_nat sz)) with (Z.to_nat sz) by lia. done.
  - cbv [ret with_data with_size].
    destruct c1 as [m1 d1 cnt1 sz1 ev1 lg1]. cbn [Generic.data] in *.
    rewrite Hback by lia. rewrite Hret.
    split; [done|]. split; [exact Hwf'|]. split; [exact Hst1|]. split; [exact Hdata|].
    cbn. split; [exact Hc1|]. split; [done|]. split; [exact He1|]. cbn in Hl1. rewrite Hl1.
    rewrite !drop_ge by lia. done.
Qed.
Lemma Resize_negative (kzero : K) (vzero : V) c sz :
  (sz < 0)%Z -> Resize kzero vzero sz c = None.
Proof.
  intros Hneg. unfold Resize. cbv [bind get put]. cbv beta iota zeta.
  destruct (resize_evict _ _ _ _) as [[[] c1]|]; [|done].
  cbv [get]. cbv beta iota zeta.
  rewrite (proj2 (Z.ltb_lt sz _)) by lia. rewrite (proj2 (Z.ltb_lt sz 0)) by lia. done.
Qed.

Lemma Peek_frame (vzero : V) c k r c' : Peek vzero k c = Some (r, c') -> c' = c.
Proof.
  unfold Peek. gsimpl. destruct (items c !! k) as [i|]; gsimpl; [|congruence].
  destruct (data c !! i); gsimpl; congruence.
Qed.

Lemma Contains_frame c k r c' : Contains k c = Some (r, c') -> c' = c.
Proof. unfold Contains. gsimpl. congruence. Qed.

Lemma Len_frame c r c' : Len c = Some (r, c') -> c' = c.
Proof. unfold Len. gsimpl. congruence. Qed.

Lemma Peek_hit (vzero : V) c k i e :
  items c !! k = Some i -> data c !! i = Some e -> Peek vzero k c = Some ((value e, true), c).
Proof. intros Hk He. unfold Peek. gsimpl. rewrite Hk. gsimpl. rewrite He. done. Qed.

Lemma Purge_inv c u c' :
  wf c -> Purge c = Some (u, c') -> wf c' /\ stamped (data c').
Proof.
  intros Hwf Hp. pose proof Hwf as (Hm & _ & _ & Hs).
  rewrite Purge_eq in Hp.
  2:{ intros k i Hk. destruct (Hm k i Hk) as (e & He & _). by exists e. }
  injection Hp as <- <-. split; [|constructor].
  split; [|split; [|split]]; cbn.
  - intros k i Hk. by rewrite lookup_empty in Hk.
  - intros i e He. by rewrite lookup_nil in He.
  - unfold map_len. by rewrite map_size_empty.
  - lia.
Qed.

Lemma Resize_inv (kzero : K) (vzero : V) c sz r c' :
  wf c -> stamped (data c) -> Resize kzero vzero sz c = Some (r, c') -> wf c' /\ stamped (data c').
Proof.
  intros Hwf Hst Hr.
  destruct (Z.ltb_spec sz 0) as [Hneg | Hpos].
  - by rewrite Resize_negative in Hr.
  - destruct (Resize_spec kzero vzero c sz Hwf Hst Hpos) as (c1 & Hrun & Hwf1 & Hst1 & _).
    rewrite Hrun in Hr. injection Hr as <- <-. done.
Qed.

Lemma run_call_inv (kzero : K) (vzero : V) cl c u c' :
  wf c -> stamped (data c) -> Calls.run_call kzero vzero cl c = Some (u, c') ->
  wf c' /\ stamped (data c').
Proof.
  intros Hwf Hst Hrun.
  destruct cl as [k v base j|k|k|k|k v base j|k v base j|k|sz| |]; cbn [Calls.run_call] in Hrun;
    cbv [bind ret] in Hrun.
  - destruct (Add k v base j c) as [[b c1]|] eqn:E; [|done]. injection Hrun as <- <-.
    destruct (Add_wf c k v base j b c1 Hwf E) as [Hw Hs']. exact (conj Hw (Hs' Hst)).
  - destruct (Get vzero k c) as [[r c1]|] eqn:E; [|done]. injection Hrun as <- <-.
    exact (Get_wf vzero c k r c1 Hwf Hst E).
  - destruct (Contains k c) as [[r c1]|] eqn:E; [|done]. injection Hrun as <- <-.
    rewrite (Contains_frame c k r c1 E). done.
  - destruct (Peek vzero k c) as [[r c1]|] eqn:E; [|done]. injection Hrun as <- <-.
    rewrite (Peek_frame vzero c k r c1 E). done.
  - destruct (ContainsOrAdd k v base j c) as [[r c1]|] eqn:E; [|done]. injection Hrun as <- <-.
    unfold ContainsOrAdd, bind in E.
    destruct (Contains k c) as [[f c2]|] eqn:E2; [|done].
    rewrite (Contains_frame c k f c2 E2) in E.
    destruct f; [cbv [ret] in E; injection E as _ <-; done|].
    destruct (Add k v base j c) as [[b c3]|] eqn:E3; [|done].
    cbv [ret] in E. injection E as _ <-. destruct (Add_wf c k v base j b c3 Hwf E3) as [Hw Hs']. exact (conj Hw (Hs' Hst)).
  - destruct (PeekOrAdd vzero k v base j c) as [[r c1]|] eqn:E; [|done]. injection Hrun as <- <-.
    unfold PeekOrAdd, bind in E.
    destruct (Peek vzero k c) as [[[p ok] c2]|] eqn:E2; [|done].
    rewrite (Peek_frame vzero c k _ c2 E2) in E.
    destruct ok; [cbv [ret] in E; injection E as _ <-; done|].
    destruct (Add k v base j c) as [[b c3]|] eqn:E3; [|done].
    cbv [ret] in E. injection E as _ <-. destruct (Add_wf c k v base j b c3 Hwf E3) as [Hw Hs']. exact (conj Hw (Hs' Hst)).
  - destruct (Remove k c) as [[r c1]|] eqn:E; [|done]. injection Hrun as <- <-.
    exact (Remove_wf c k r c1 Hwf Hst E).
  - destruct (Resize kzero vzero sz c) as [[r c1]|] eqn:E; [|done]. injection Hrun as <- <-.
    exact (Resize_inv kzero vzero c sz r c1 Hwf Hst E).
  - destruct (Len c) as [[r c1]|] eqn:E; [|done]. injection Hrun as <- <-.
    rewrite (Len_frame c r c1 E). done.
  - exact (Purge_inv c u c' Hwf Hrun).
Qed.

Lemma run_calls_inv (kzero : K) (vzero : V) l : forall c u c',
  wf c -> stamped (data c) -> Calls.run_calls kzero vzero l c = Some (u, c') ->
  wf c' /\ stamped (data c').
Proof.
  induction l as [|cl l IH]; intros c u c' Hwf Hst Hrun; cbn [Calls.run_calls] in Hrun.
  - cbv [ret] in Hrun. injection Hrun as _ <-. done.
  - cbv [bind] in Hrun. destruct (Calls.run_call kzero vzero cl c) as [[u1 c1]|] eqn:E; [|done].
    destruct (run_call_inv kzero vzero cl c u1 c1 Hwf Hst E) as [Hwf1 Hst1].
    exact (IH c1 u c' Hwf1 Hst1 Hrun).
Qed.
Lemma Peek_contents (vzero : V) c k :
  wf c ->
  Peek vzero k c =
    Some (match contents c !! k with Some v => (v, true) | None => (vzero, false) end, c).
Proof.
  intros (Hm & _). unfold Peek, contents. gsimpl. rewrite lookup_omap.
  destruct (items c !! k) as [i|] eqn:Hk; gsimpl; [|done].
  destruct (Hm k i Hk) as (e & He & _). rewrite He. done.
Qed.

Lemma contents_lookup c k i e :
  items c !! k = Some i -> data c !! i = Some e -> contents c !! k = Some (value e).
Proof. intros Hk He. unfold contents. rewrite lookup_omap, Hk. cbn. by rewrite He. Qed.

Lemma contents_lookup_None c k :
  items c !! k = None -> contents c !! k = None.
Proof. intros Hk. unfold contents. by rewrite lookup_omap, Hk. Qed.

Lemma wf_slot_ne c k i j e :
  wf c -> items c !! k = Some i -> data c !! j = Some e -> key e <> k -> i <> j.
Proof. intros Hwf Hk Hj Hne ->. apply Hne. exact (wf_slot_key c k j e Hwf Hk Hj). Qed.

Lemma Add_existing_contents c k v base j i e :
  wf c -> items c !! k = Some i -> data c !! i = Some e ->
  exists c',
    Add k v base j c = Some (false, c') /\
    contents c' = <[k := v]> (contents c) /\
    items c' = items c /\ data c' !! i = Some (mkEntry (next_stamp c) k v) /\
    size c' = size c /\ evictLog c' = evictLog c.
Proof.
  intros Hwf Hk He. pose proof (wf_slot_key c k i e Hwf Hk He) as Hke.
  pose proof (lookup_lt_Some _ _ _ He) as Hi.
  eexists. rewrite (Add_existing c k v base j i e Hk He). split; [done|].
  cbn. rewrite Hke. split; [|split; [done|split; [by rewrite list_lookup_insert_eq|done]]].
  apply map_eq. intros k'. unfold contents. cbn. rewrite lookup_omap.
  destruct (decide (k' = k)) as [->|Hne].
  - rewrite lookup_insert_eq, Hk. cbn. by rewrite list_lookup_insert_eq.
  - rewrite lookup_insert_ne by congruence. rewrite lookup_omap.
    destruct (items c !! k') as [i'|] eqn:Hk'; [|done]. cbn.
    rewrite list_lookup_insert_ne; [done|].
    intros ->. exact (wf_slot_ne c k' i' i' e Hwf Hk' He ltac:(congruence) eq_refl).
Qed.
Lemma Add_fresh_room c k v base j :
  wf c -> items c !! k = None -> (0 < size c)%Z ->
  (Z.of_nat (map_len (items c)) < size c)%Z -> j <= map_len (items c) ->
  exists c',
    Add k v base j c = Some (false, c') /\
    contents c' = <[k := v]> (contents c) /\
    map_len (items c') = S (map_len (items c)) /\
    size c' = size c /\ evictLog c' = evictLog c.
Proof.
  intros Hwf Hk Hpos Hlt Hj. pose proof Hwf as (Hm & Hinv & Hl & Hs).
  rewrite Hl in Hlt, Hj |- *.
  assert (Hsz : size c <> 0%Z) by lia.
  assert (Hnf : Z.of_nat (length (data c)) <> size c) by lia.
  set (ent := mkEntry (next_stamp c) k v).
  destruct (Nat.eq_dec j (length (data c))) as [-> | Hne].
  - eexists. rewrite (Add_append_last c k v base Hk Hsz Hnf). split; [done|]. cbn.
    split; [|split; [|done]].
    + apply map_eq. intros k'. unfold contents. cbn. rewrite !lookup_omap.
      destruct (decide (k' = k)) as [->|Hkk].
      * rewrite !lookup_insert_eq. cbn. rewrite lookup_app_r, Nat.sub_diag by lia. done.
      * rewrite lookup_insert_ne by congruence. rewrite lookup_insert_ne by congruence. rewrite lookup_omap.
        destruct (items c !! k') as [i'|] eqn:Hk'; [|done]. cbn.
        destruct (Hm k' i' Hk') as (e' & He' & _).
        rewrite lookup_app_l by exact (lookup_lt_Some _ _ _ He'). done.
    + unfold map_len. rewrite map_size_insert_None by exact Hk. unfold map_len in Hl. lia.
  - assert (HjL : j < length (data c)) by lia.
    destruct (lookup_lt_is_Some_2 (data c) j HjL) as [ej Hej].
    pose proof (Hinv j ej Hej) as Hkej.
    assert (Hkne : key ej <> k) by (intros Heq; rewrite Heq in Hkej; congruence).
    eexists. rewrite (Add_append_swap c k v base j ej Hk Hsz Hnf HjL Hej). split; [done|]. cbn.
    split; [|split; [|done]].
    + apply map_eq. intros k'. unfold contents. cbn. rewrite !lookup_omap.
      destruct (decide (k' = key ej)) as [->|Hk1].
      * rewrite lookup_insert_eq. cbn.
        rewrite list_lookup_insert_ne by lia.
        rewrite list_lookup_insert_eq by (rewrite length_app; cbn; lia).
        rewrite lookup_insert_ne by congruence. rewrite lookup_omap, Hkej. cbn. by rewrite Hej.
      * rewrite lookup_insert_ne by congruence.
        destruct (decide (k' = k)) as [->|Hk2].
        -- rewrite !lookup_insert_eq. cbn.
           rewrite list_lookup_insert_eq; [done|].
           rewrite length_insert, length_app. cbn. lia.
        -- rewrite !lookup_insert_ne by congruence. rewrite lookup_omap.
           destruct (items c !! k') as [i'|] eqn:Hk'; [|done]. cbn.
           destruct (Hm k' i' Hk') as (e' & He' & _).
           pose proof (lookup_lt_Some _ _ _ He') as Hi'.
           assert (i' <> j) by exact (wf_slot_ne c k' i' j ej Hwf Hk' Hej ltac:(congruence)).
           rewrite list_lookup_insert_ne by lia. rewrite list_lookup_insert_ne by lia.
           rewrite lookup_app_l by lia. done.
    + unfold map_len. rewrite map_size_insert_Some.
      2:{ rewrite !lookup_insert_ne by congruence. rewrite Hkej. by eexists. }
      rewrite insert_insert_eq, map_size_insert_None by exact Hk. unfold map_len in Hl. lia.
Qed.

Lemma Add_fresh_full c k v base j :
  wf c -> items c !! k = None -> (0 < size c)%Z ->
  Z.of_nat (map_len (items c)) = size c -> base < map_len (items c) ->
  exists c' k' v',
    Add k v base j c = Some (true, c') /\
    contents c !! k' = Some v' /\
    contents c' = <[k := v]> (delete k' (contents c)) /\
    map_len (items c') = map_len (items c) /\
    size c' = size c /\
    evictLog c' = evictLog c ++ (if onEvict c then [(k', v')] else []).
Proof.
  intros Hwf Hk Hpos Hfull Hb. pose proof Hwf as (Hm & Hinv & Hl & Hs).
  destruct (wf_probe c base Hwf Hb) as (off & p & e & Hsel & He & _).
  assert (Hf : Z.of_nat (length (data c)) = size c) by (rewrite <- Hl; exact Hfull).
  assert (Hsz : size c <> 0%Z) by lia.
  pose proof (Hinv off e He) as Hke.
  assert (Hkne : key e <> k) by (intros Heq; rewrite Heq in Hke; congruence).
  exists (mkLRU (<[k := off]> (delete (key e) (items c))) (<[off := mkEntry (next_stamp c) k v]> (data c))
            (wrap64 (next_stamp c + 1)) (size c) (onEvict c) (log_after c e)), (key e), (value e).
  rewrite (Add_evict c k v base j off e Hk Hsz Hf Hsel He).
  split; [done|]. split; [exact (contents_lookup c (key e) off e Hke He)|].
  cbn. split; [|split; [|split; [done|]]].
  - apply map_eq. intros k'. unfold contents. cbn. rewrite !lookup_omap.
    destruct (decide (k' = k)) as [->|Hk1].
    + rewrite !lookup_insert_eq. cbn. rewrite list_lookup_insert_eq; [done|].
      exact (lookup_lt_Some _ _ _ He).
    + rewrite !lookup_insert_ne by congruence.
      destruct (decide (k' = key e)) as [->|Hk2].
      * rewrite !lookup_delete_eq. done.
      * rewrite lookup_delete_ne by congruence. rewrite lookup_delete_ne by congruence.
        rewrite lookup_omap.
        destruct (items c !! k') as [i'|] eqn:Hk'; [|done]. cbn.
        assert (i' <> off) by exact (wf_slot_ne c k' i' off e Hwf Hk' He ltac:(congruence)).
        rewrite list_lookup_insert_ne by lia. done.
  - unfold map_len. rewrite map_size_insert_None by (rewrite lookup_delete_ne by congruence; exact Hk).
    rewrite map_size_delete_Some by (eexists; exact Hke).
    assert (base.size (items c) <> 0) by (apply map_size_non_empty_iff; intros Hemp;
      rewrite Hemp, lookup_empty in Hke; congruence).
    lia.
  - unfold log_after. destruct (onEvict c); [done | by rewrite app_nil_r].
Qed.
(** X5 ([Remove] with [removeElement]): on a well-formed cache, [Remove]
    returns whether the key was cached, drops it from what the cache holds,
    lowers [Len()] by one exactly when it was there, and makes the callback
    with the removed key and value (if a callback is set). *)
Lemma Remove_contents c k :
  wf c ->
  exists c',
    Remove k c = Some (bool_decide (is_Some (contents c !! k)), c') /\
    contents c' = delete k (contents c) /\
    map_len (items c') = map_len (items c) - (if bool_decide (is_Some (contents c !! k)) then 1 else 0) /\
    size c' = size c /\
    evictLog c' = evictLog c ++
      (match contents c !! k with Some v => if onEvict c then [(k, v)] else [] | None => [] end).
Proof.
  intros Hwf. pose proof Hwf as (Hm & Hinv & Hl & Hs).
  destruct (items c !! k) as [i|] eqn:Hk.
  2:{ exists c. rewrite (Remove_absent c k Hk), (contents_lookup_None c k Hk).
      rewrite delete_id by exact (contents_lookup_None c k Hk).
      cbn. rewrite app_nil_r, Nat.sub_0_r. done. }
  destruct (Hm k i Hk) as (e & He & Hke).
  rewrite (contents_lookup c k i e Hk He).
  pose proof (lookup_lt_Some _ _ _ He) as Hi.
  destruct (lookup_lt_is_Some_2 (data c) (length (data c) - 1)) as [elast Hlast]; [lia|].
  eexists. rewrite (Remove_present c k i e elast Hwf Hk He Hlast). split; [done|]. cbn.
  pose proof (Hinv _ _ Hlast) as Hkl.
  split; [|split; [|split; [done|]]].
  - apply map_eq. intros k'. unfold contents. cbn. rewrite lookup_omap.
    destruct (decide (k' = k)) as [->|Hk1].
    + by rewrite !lookup_delete_eq.
    + rewrite !lookup_delete_ne by congruence. rewrite lookup_omap.
      destruct (decide (k' = key elast)) as [->|Hk2].
      * rewrite lookup_insert_eq, Hkl. cbn.
        assert (i <> length (data c) - 1).
        { intros Heq. rewrite <- Heq in Hlast. rewrite He in Hlast. injection Hlast as ->.
          apply Hk1. exact Hke. }
        rewrite lookup_take_lt by lia. rewrite list_lookup_insert_eq by lia. by rewrite Hlast.
      * rewrite lookup_insert_ne by congruence.
        destruct (items c !! k') as [i'|] eqn:Hk'; [|done]. cbn.
        destruct (Hm k' i' Hk') as (e' & He' & _).
        pose proof (lookup_lt_Some _ _ _ He') as Hi'.
        assert (i' <> i) by (intros ->; exact (wf_slot_ne c k' i i e Hwf Hk' He ltac:(congruence) eq_refl)).
        assert (i' <> length (data c) - 1)
          by exact (wf_slot_ne c k' i' _ elast Hwf Hk' Hlast ltac:(congruence)).
        rewrite lookup_take_lt by lia. rewrite list_lookup_insert_ne by lia. done.
  - unfold map_len. rewrite map_size_delete_Some.
    2:{ destruct (decide (key elast = k)) as [->|Hne]; [rewrite lookup_insert_eq | rewrite lookup_insert_ne, Hk by congruence]; by eexists. }
    rewrite map_size_insert_Some by (rewrite Hkl; by eexists).
    rewrite ?bool_decide_true by (by eexists). cbn. lia.
  - unfold log_after. rewrite Hke. destruct (onEvict c); [done | by rewrite app_nil_r].
Qed.

Lemma Get_contents (vzero : V) c k :
  wf c ->
  exists c',
    Get vzero k c = Some (match contents c !! k with Some v => (v, true) | None => (vzero, false) end, c') /\
    contents c' = contents c /\ items c' = items c /\ size c' = size c /\ evictLog c' = evictLog c /\
    (forall i, items c !! k = Some i -> stamp_at (data c') i = next_stamp c).
Proof.
  intros Hwf. pose proof Hwf as (Hm & Hinv & Hl & Hs).
  destruct (items c !! k) as [i|] eqn:Hk.
  2:{ exists c. rewrite (Get_miss vzero c k Hk), (contents_lookup_None c k Hk). done. }
  destruct (Hm k i Hk) as (e & He & Hke).
  pose proof (lookup_lt_Some _ _ _ He) as Hi.
  rewrite (contents_lookup c k i e Hk He).
  eexists. rewrite (Get_hit vzero c k i e Hk He Hke). split; [done|]. cbn.
  split; [|split; [done|split; [done|split; [done|]]]].
  - apply map_eq. intros k'. unfold contents. cbn. rewrite !lookup_omap.
    destruct (items c !! k') as [i'|] eqn:Hk'; [|done]. cbn.
    destruct (decide (i' = i)) as [->|Hne].
    + rewrite list_lookup_insert_eq by lia. rewrite He. done.
    + rewrite list_lookup_insert_ne by congruence. done.
  - intros i' Hi'. injection Hi' as <-.
    unfold stamp_at. rewrite list_lookup_insert_eq by lia. done.
Qed.

Lemma probe_select_out (d : list (entry K V)) N base :
  0 < N -> length d <= base -> probe_select d N base = None.
Proof.
  intros HN Hb. unfold probe_select.
  rewrite (proj2 (Nat.leb_gt N 0) HN). rewrite lookup_ge_None_2 by lia. done.
Qed.

Lemma Add_lookup c k v base j b c' :
  wf c -> size c <> 0%Z -> Add k v base j c = Some (b, c') -> contents c' !! k = Some v.
Proof.
  intros Hwf Hsz Hadd. pose proof Hwf as (Hm & Hinv & Hl & Hs).
  destruct (items c !! k) as [i|] eqn:Hk.
  { destruct (Hm k i Hk) as (e & He & _).
    destruct (Add_existing_contents c k v base j i e Hwf Hk He) as (c1 & Hrun & Hc & _).
    rewrite Hadd in Hrun. injection Hrun as _ <-. rewrite Hc. apply lookup_insert_eq. }
  assert (Hpos : (0 < size c)%Z) by lia.
  destruct (Z.eq_dec (Z.of_nat (map_len (items c))) (size c)) as [Hf|Hnf].
  - destruct (Nat.lt_ge_cases base (map_len (items c))) as [Hb|Hb].
    + destruct (Add_fresh_full c k v base j Hwf Hk Hpos Hf Hb) as (c1 & k1 & v1 & Hrun & _ & Hc & _).
      rewrite Hadd in Hrun. injection Hrun as _ <-. rewrite Hc. apply lookup_insert_eq.
    + rewrite Hl in Hf, Hb.
      rewrite (Add_full_probe_fail c k v base j Hk Hsz Hf) in Hadd; [done|].
      intros p. rewrite probe_select_out; [done| |lia].
      rewrite Hl. destruct (length (data c)); [|lia]. cbn in Hf. lia.
  - destruct (Nat.le_gt_cases j (map_len (items c))) as [Hj|Hj].
    + destruct (Add_fresh_room c k v base j Hwf Hk Hpos ltac:(lia) Hj) as (c1 & Hrun & Hc & _).
      rewrite Hadd in Hrun. injection Hrun as _ <-. rewrite Hc. apply lookup_insert_eq.
    + rewrite Hl in Hnf, Hj. rewrite (Add_append_oob c k v base j Hk Hsz Hnf Hj) in Hadd. done.
Qed.
Lemma sorted_take_drop (l : list (entry K V)) n x y :
  Sorted stamp_desc l -> x ∈ take n l -> y ∈ drop n l -> (lastUsed y <= lastUsed x)%Z.
Proof.
  intros Hs. apply Sorted_StronglySorted in Hs; [|intros a b d; unfold stamp_desc; lia].
  revert n. induction l as [|a l IH]; intros n Hx Hy.
  - rewrite take_nil in Hx. by apply elem_of_nil in Hx.
  - destruct n as [|n]; [by apply elem_of_nil in Hx|].
    apply StronglySorted_inv in Hs as [Hs Hall].
    cbn in Hx, Hy. apply elem_of_cons in Hx as [->|Hx].
    + assert (Hy' : y ∈ l) by (rewrite <- (take_drop n l); apply elem_of_app; by right).
      exact (proj1 (Forall_forall _ _) Hall y Hy').
    + exact (IH Hs n Hx Hy).
Qed.

Lemma contents_None_items c k :
  wf c -> contents c !! k = None -> items c !! k = None.
Proof.
  intros (Hm & _) Hc. destruct (items c !! k) as [i|] eqn:Hk; [|done].
  destruct (Hm k i Hk) as (e & He & _). by rewrite (contents_lookup c k i e Hk He) in Hc.
Qed.

Lemma add_loop_len (kf : nat -> K) (val : nat -> V) (base j : nat -> nat) (S0 : nat) n :
  (forall a b, kf a = kf b -> a = b) ->
  (forall i, i < S0 -> j i <= i) -> (forall i, S0 <= i -> base i < S0) ->
  forall i c,
    wf c -> size c = Z.of_nat S0 -> 0 < S0 ->
    map_len (items c) = Nat.min i S0 ->
    (forall m, i <= m -> items c !! kf m = None) ->
    exists c', Calls.add_loop kf val base j i n c = Some (tt, c') /\ wf c' /\
               map_len (items c') = Nat.min (i + n) S0.
Proof.
  intros Hinj Hj Hb. induction n as [|n IH]; intros i c Hwf Hsz HS Hlen Hfresh.
  { exists c. rewrite Nat.add_0_r. done. }
  cbn [Calls.add_loop]. cbv [bind].
  assert (Hk : items c !! kf i = None) by (apply Hfresh; lia).
  assert (Hstep : exists (b : bool) (c1 : LRU (K:=K) (V:=V)), Add (kf i) (val i) (base i) (j i) c = Some (b, c1) /\
            map_len (items c1) = Nat.min (S i) S0 /\ size c1 = size c /\
            (contents c1 = <[kf i := val i]> (contents c) \/
             exists k', contents c1 = <[kf i := val i]> (delete k' (contents c)))).
  { destruct (Nat.lt_ge_cases i S0) as [Hi|Hi].
    - destruct (Add_fresh_room c (kf i) (val i) (base i) (j i) Hwf Hk ltac:(lia) ltac:(lia) ltac:(specialize (Hj i Hi); lia))
        as (c1 & Hrun & Hc & Hl1 & Hs1 & _).
      exists false, c1. split; [done|]. split; [lia|]. split; [done|]. by left.
    - destruct (Add_fresh_full c (kf i) (val i) (base i) (j i) Hwf Hk ltac:(lia) ltac:(lia) ltac:(specialize (Hb i Hi); lia))
        as (c1 & k' & v' & Hrun & _ & Hc & Hl1 & Hs1 & _).
      exists true, c1. split; [done|]. split; [lia|]. split; [done|]. right. eauto. }
  destruct Hstep as (b & c1 & Hrun & Hl1 & Hs1 & Hc1). rewrite Hrun.
  destruct (Add_wf c (kf i) (val i) (base i) (j i) b c1 Hwf Hrun) as [Hwf1 _].
  destruct (IH (S i) c1 Hwf1 ltac:(congruence) HS Hl1) as (c' & Hrun' & Hwf' & Hl').
  { intros m Hm. apply contents_None_items; [exact Hwf1|].
    assert (Hne : kf m <> kf i) by (intros Heq; apply Hinj in Heq; lia).
    assert (Hcm : contents c !! kf m = None) by (apply contents_lookup_None, Hfresh; lia).
    destruct Hc1 as [-> | (k' & ->)].
    - rewrite lookup_insert_ne by congruence. exact Hcm.
    - rewrite lookup_insert_ne by congruence.
      destruct (decide (k' = kf m)) as [->|Hne']; [by rewrite lookup_delete_eq|].
      rewrite lookup_delete_ne by congruence. exact Hcm. }
  exists c'. split; [exact Hrun'|]. split; [exact Hwf'|]. rewrite Hl'. f_equal. lia.
Qed.

(** X12 ([PeekOrAdd] of lru.go): on a well-formed cache, a cached key is
    returned with [true] and nothing changes; otherwise the key is added as by
    [Add] and the zero value, [false] and the eviction flag of [Add] are
    returned. *)
Lemma PeekOrAdd_contents (vzero : V) c k v base j :
  wf c ->
  PeekOrAdd vzero k v base j c =
    match contents c !! k with
    | Some v0 => Some ((v0, true, false), c)
    | None => match Add k v base j c with
              | Some (b, c') => Some ((vzero, false, b), c')
              | None => None
              end
    end.
Proof.
  intros Hwf. unfold PeekOrAdd. cbv [bind]. rewrite (Peek_contents vzero c k Hwf).
  destruct (contents c !! k); cbv [ret]; [done|].
  by destruct (Add k v base j c) as [[b c']|].
Qed.

Lemma NewLRU_wf sz ev c :
  NewLRU sz ev = Ok c -> wf c /\ stamped (data c).
Proof.
  unfold NewLRU. destruct (Z.leb_spec sz 0); [done|]. intros Hok. injection Hok as <-.
  split; [|constructor]. split; [|split; [|split]]; cbn.
  - intros k i Hk. by rewrite lookup_empty in Hk.
  - intros i e He. by rewrite lookup_nil in He.
  - unfold map_len. by rewrite map_size_empty.
  - lia.
Qed.
End OpLemmas.

Section ApproxExtra.
Context {V : Type} (vnil : V).
Import Approx.
Local Arguments Nat.ltb : simpl never.
Local Arguments Nat.eqb : simpl never.

(** X13 (package approxlru, [getCounter] with [Add] and [Get]): once the
    counter is at the int64 maximum, [Add] panics, and so does a [Get] that
    finds its key. *)
Lemma Approx_counter_overflow (c : LRU (V:=V)) k v pick base :
  counter c = (2 ^ 63 - 1)%Z ->
  Add vnil k v pick base c = None /\
  (forall i e, items c !! k = Some i -> data c !! i = Some e -> key e = k -> Get vnil k c = None).
Proof.
  intros Hc.
  assert (H0 : (2 ^ 63 - 1 =? 0)%Z = false) by reflexivity.
  assert (Hw : (wrap64 (2 ^ 63 - 1 + 1) <? 0)%Z = true) by (vm_compute; reflexivity).
  split.
  - unfold Add, getCounter. asimpl. rewrite Hc, H0. asimpl. rewrite ?Hc, Hw. done.
  - intros i e Hk He Hke. unfold Get, getCounter. asimpl. rewrite Hk. asimpl. rewrite He. asimpl.
    rewrite decide_True by exact Hke. asimpl. rewrite Hc, H0. asimpl. rewrite ?Hc, Hw. done.
Qed.
End ApproxExtra.
Section GenericExtra.
Context {K : Type} `{Countable K} {V : Type}.
Import Generic GenericWf.
Implicit Types (c : LRU (K:=K) (V:=V)) (k : K) (v : V).

(** X1 ([Add], key present): on a well-formed cache, [Add] of a key already
    cached returns [false], replaces the key's value in place (the map is
    unchanged and the slot gets the next stamp), and makes no callback. *)
Theorem Add_existing_key_in_place c k v base j i :
  wf c -> items c !! k = Some i ->
  exists c', Add k v base j c = Some (false, c') /\
    contents c' = <[k := v]> (contents c) /\ items c' = items c /\
    stamp_at (data c') i = next_stamp c /\
    size c' = size c /\ evictLog c' = evictLog c.
Proof.
  intros Hw Hk. destruct (proj1 Hw k i Hk) as (e & He & _).
  destruct (Add_existing_contents c k v base j i e Hw Hk He)
    as (c' & Hadd & Hc & Hi & Hd & Hs & Hl).
  exists c'. unfold stamp_at. rewrite Hd. repeat split; assumption.
Qed.

(** X2 ([Add] with [addShuffled] and [swap], new key, room left): [Add]
    returns [false], the cache now maps the key to the value, [Len()] grows
    by one and no callback is made; the draw of [rng.Intn(len+1)] is at
    most [Len()]. *)
Theorem Add_fresh_key_with_room c k v base j :
  wf c -> items c !! k = None -> (0 < size c)%Z ->
  (Z.of_nat (map_len (items c)) < size c)%Z -> j <= map_len (items c) ->
  exists c', Add k v base j c = Some (false, c') /\
    contents c' = <[k := v]> (contents c) /\
    map_len (items c') = S (map_len (items c)) /\ evictLog c' = evictLog c.
Proof.
  intros Hw Hk Hs Hr Hj.
  destruct (Add_fresh_room c k v base j Hw Hk Hs Hr Hj) as (c' & Hadd & Hc & Hl & _ & Hg).
  exists c'. repeat split; assumption.
Qed.

(** X3 ([Add] with [findOldest] and [removeElement], new key, cache full):
    [Add] returns [true]; exactly one cached key [k'] is dropped and the new
    key added, [Len()] stays the same, and the callback (if any) is made once,
    with [k'] and its value; the probe [base] is a draw of [rng.Intn(Len())]. *)
Theorem Add_fresh_key_when_full c k v base j :
  wf c -> items c !! k = None -> (0 < size c)%Z ->
  Z.of_nat (map_len (items c)) = size c -> base < map_len (items c) ->
  exists c' k' v',
    Add k v base j c = Some (true, c') /\
    contents c !! k' = Some v' /\
    contents c' = <[k := v]> (delete k' (contents c)) /\
    map_len (items c') = map_len (items c) /\
    evictLog c' = evictLog c ++ (if onEvict c then [(k', v')] else []).
Proof.
  intros Hw Hk Hs Hf Hb.
  destruct (Add_fresh_full c k v base j Hw Hk Hs Hf Hb)
    as (c' & k' & v' & Hadd & Hin & Hc & Hl & _ & Hg).
  exists c', k', v'. repeat split; assumption.
Qed.

(** X4 ([Add], [Peek], [Get]): on a well-formed cache of non-zero size, a
    key just added is found by [Peek] and by [Get], with the value added. *)
Theorem Add_then_Peek_Get (vzero : V) c k v base j b c' :
  wf c -> size c <> 0%Z -> Add k v base j c = Some (b, c') ->
  Peek vzero k c' = Some ((v, true), c') /\
  exists c'', Get vzero k c' = Some ((v, true), c'').
Proof.
  intros Hw Hs Hadd.
  pose proof (Add_lookup c k v base j b c' Hw Hs Hadd) as Hl.
  destruct (Add_wf c k v base j b c' Hw Hadd) as [Hw' _].
  split.
  - rewrite (Peek_contents vzero c' k Hw'), Hl. reflexivity.
  - destruct (Get_contents vzero c' k Hw') as (c'' & Hg & _). rewrite Hl in Hg. exists c''. exact Hg.
Qed.

(** X6 ([Get]): on a well-formed cache, [Get] returns the cached value and
    [true], or the zero value and [false] for a missing key; what the cache
    holds is unchanged, no callback is made, and a hit gets the next stamp. *)
Theorem Get_returns_cached (vzero : V) c k :
  wf c ->
  exists c',
    Get vzero k c = Some (match contents c !! k with Some v => (v, true) | None => (vzero, false) end, c') /\
    contents c' = contents c /\ items c' = items c /\ evictLog c' = evictLog c /\
    (forall i, items c !! k = Some i -> stamp_at (data c') i = next_stamp c).
Proof.
  intros Hw. destruct (Get_contents vzero c k Hw) as (c' & Hg & Hc & Hi & _ & Hl & Hs).
  exists c'. repeat split; assumption.
Qed.

(** X7 ([Purge]): on a well-formed cache, [Purge] leaves an empty cache with
    the same size and counter, and calls the callback (if set) once for each
    stored entry with a positive stamp, in some order. *)
Theorem Purge_reports_live c :
  wf c ->
  exists lg,
    Purge c = Some (tt, mkLRU ∅ [] (counter c) (size c) (onEvict c) (evictLog c ++ lg)) /\
    (if onEvict c
     then lg ≡ₚ map (fun e => (key e, value e)) (filter (fun e => (0 < lastUsed e)%Z) (data c))
     else lg = []).
Proof.
  intros Hw.
  assert (Hs : forall k i, items c !! k = Some i -> is_Some (data c !! i)).
  { intros k i Hk. destruct (proj1 Hw k i Hk) as (e & He & _). rewrite He. eauto. }
  rewrite (Purge_eq c Hs). eexists. split; [reflexivity|].
  destruct (onEvict c); [apply Purge_log_perm; exact Hw | reflexivity].
Qed.

(** X8 ([Resize], [size >= 0]): on a well-formed cache whose entries all
    carry stamps, [Resize(size)] returns [max(0, Len() - size)], keeps the
    [size] most recently used entries (sorted by descending stamp), evicts the
    others with one callback each from the oldest up, and stays well formed. *)
Theorem Resize_keeps_most_recent (kzero : K) (vzero : V) c sz :
  wf c -> stamped (data c) -> (0 <= sz)%Z ->
  exists c',
    Resize kzero vzero sz c = Some (Z.of_nat (length (data c) - Z.to_nat sz), c') /\
    wf c' /\ size c' = sz /\
    data c' = take (Z.to_nat sz) (sort_desc (data c)) /\
    data c' ++ drop (Z.to_nat sz) (sort_desc (data c)) ≡ₚ data c /\
    (forall x y, x ∈ data c' -> y ∈ drop (Z.to_nat sz) (sort_desc (data c)) ->
                 (lastUsed y <= lastUsed x)%Z) /\
    evictLog c' = evictLog c ++
      (if onEvict c
       then map (fun e => (key e, value e)) (rev (drop (Z.to_nat sz) (sort_desc (data c))))
       else []).
Proof.
  intros Hw Hst Hsz.
  destruct (Resize_spec kzero vzero c sz Hw Hst Hsz)
    as (c' & Hr & Hw' & _ & Hd & _ & Hs & _ & Hl).
  exists c'. split; [exact Hr|]. split; [exact Hw'|]. split; [exact Hs|].
  split; [exact Hd|]. split.
  - rewrite Hd, take_drop. apply sort_desc_perm.
  - split; [|exact Hl]. intros x y Hx Hy. rewrite Hd in Hx.
    exact (sorted_take_drop _ _ x y (sort_desc_sorted (data c)) Hx Hy).
Qed.

(** X9 ([Resize], [size < 0]): [Resize] with a negative size panics. *)
Theorem Resize_negative_panics (kzero : K) (vzero : V) c sz :
  (sz < 0)%Z -> Resize kzero vzero sz c = None.
Proof. apply Resize_negative. Qed.

(** X10 (the facade over the engine): every sequence of calls made on a cache
    returned by [NewLRU] that does not panic leaves a well-formed cache, whose
    [Len()] is at most its size. *)
Theorem calls_keep_wf (kzero : K) (vzero : V) sz ev l u c' :
  run_from (NewLRU sz ev) (Calls.run_calls kzero vzero l) = Some (u, c') ->
  wf c' /\ (Z.of_nat (map_len (items c')) <= size c')%Z.
Proof.
  unfold run_from. destruct (NewLRU sz ev) as [c|msg] eqn:Hn; [|discriminate].
  intros Hr. destruct (NewLRU_wf sz ev c Hn) as [Hw Hst].
  destruct (run_calls_inv kzero vzero l c u c' Hw Hst Hr) as [Hw' _].
  split; [exact Hw'|]. destruct Hw' as (_ & _ & Hl & Hs). rewrite Hl. exact Hs.
Qed.

(** X11 ([main] of internal/lru/lru_interface.go): adding [n] distinct keys
    one after the other to a new cache of size [S0 > 0] never panics and
    leaves [min n S0] entries, given that the draws of [rng.Intn] are in
    range. *)
Theorem add_loop_fills (kf : nat -> K) (val : nat -> V) (base j : nat -> nat) (S0 n : nat) ev :
  (forall a b, kf a = kf b -> a = b) -> 0 < S0 ->
  (forall i, i < S0 -> j i <= i) -> (forall i, S0 <= i -> base i < S0) ->
  exists c',
    run_from (NewLRU (Z.of_nat S0) ev) (Calls.add_loop kf val base j 0 n) = Some (tt, c') /\
    map_len (items c') = Nat.min n S0.
Proof.
  intros Hinj HS Hj Hb.
  assert (Hn : NewLRU (K:=K) (V:=V) (Z.of_nat S0) ev = Ok (mkLRU ∅ [] 1 (Z.of_nat S0) ev [])).
  { unfold NewLRU. rewrite (proj2 (Z.leb_gt _ _)) by lia. reflexivity. }
  destruct (NewLRU_wf _ _ _ Hn) as [Hw _].
  destruct (add_loop_len kf val base j S0 n Hinj Hj Hb 0 _ Hw eq_refl HS)
    as (c' & Hr & _ & Hl).
  - reflexivity.
  - intros m _. reflexivity.
  - exists c'. rewrite Hn. cbn [run_from]. split; [exact Hr | exact Hl].
Qed.

End GenericExtra.


(** C5 (package approxlru): the shuffle made when the storage fills up
    maps the key of every slot it touches, empty slots included. After
    [Add a; Remove a; Add b] on a cache of size 2, with the shuffle swapping
    slots 1 and 0, [Len()] is 2 while one slot is occupied, and the zero
    key [""], never added, is in the map at slot 1: [Get("")] finds it. *)
Theorem approx_shuffle_maps_empty_slot :
  exists c',
    run_from (Approx.NewLRU 2 false) Samples.approx_hole_key
      = Some ((2, 1, (0%Z, true)), c') /\
    Approx.items c' !! ""%string = Some 1.
Proof. vm_compute. eexists. split; reflexivity. Qed.

(** C1 (package approxlru): [Add] reports an eviction that did not happen.
    After [Add a; Add b; Remove a] on a cache of size 2 (the shuffle leaving
    the order unchanged), one entry is live ([Len() = 1]) but the storage
    still has two slots, so [Add c] takes the eviction branch: the probe
    lands on the empty slot left by [Remove], nothing is destroyed and no
    callback is made (the log only has the removal of [a]), yet [Add]
    returns [true]. *)
Lemma approx_Add_evicts_with_room :
  exists c',
    run_from (Approx.NewLRU 2 true) Samples.approx_evict_with_room = Some ((1, true), c') /\
    Approx.size c' = 2%Z /\ length (Approx.data c') = 2 /\
    Approx.evictLog c' = [("a"%string, 1%Z)].
Proof. vm_compute. eexists. split; [reflexivity|]. repeat split; reflexivity. Qed.

(** C3 does not hold: [NewLRU(0, nil)] fails in both packages. *)
Lemma NewLRU_zero_rejected :
  Generic.NewLRU (K:=string) (V:=Z) 0 false = Err "must provide a positive size" /\
  Approx.NewLRU (V:=Z) 0 false = Err "must provide a positive size".
Proof. split; reflexivity. Qed.

(** C4 does not hold for package approxlru: [Remove] of the only entry
    clears its slot and the storage keeps its length 1. *)
Lemma approx_Remove_keeps_length :
  Approx.Remove 0%Z "a" Samples.approx_one =
    Some (true, Approx.mkLRU ∅ [Approx.empty_entry 0%Z] 2%Z 2%Z true [("a"%string, 10%Z)]).
Proof. vm_compute. reflexivity. Qed.

(** C7 does not hold: on a cache whose map sends ["a"] to a slot holding
    ["b"], [Get("a")] returns normally, with [(0, false)]. *)
Lemma Get_mismatch_returns :
  Generic.Get 0%Z "a" Samples.mismatch = Some ((0%Z, false), Samples.mismatch).
Proof. vm_compute. reflexivity. Qed.

(** ** The theorems at concrete caches *)

Lemma Add_new_key_cases_witness :
  GenericWf.wf Samples.one /\ Generic.items Samples.one !! "b"%string = None /\
  (0 < Generic.size Samples.one)%Z /\
  exists c', Generic.Add "b"%string 20%Z 0 1 Samples.one = Some (false, c').
Proof.
  assert (Hw : GenericWf.wf Samples.one) by (apply wfb_wf; vm_compute; reflexivity).
  assert (Hk : Generic.items Samples.one !! "b"%string = None) by (vm_compute; reflexivity).
  assert (Hs : (0 < Generic.size Samples.one)%Z) by (vm_compute; reflexivity).
  destruct (proj1 (Add_new_key_cases Samples.one "b"%string 20%Z 0 1 Hw Hk Hs)
              ltac:(vm_compute; reflexivity) ltac:(vm_compute; lia)) as (c' & el & Hadd & _).
  split; [exact Hw|]. split; [exact Hk|]. split; [exact Hs|]. exists c'. exact Hadd.
Defined.

Lemma eviction_probe_first_min_witness :
  (exists off, Generic.findOldest 1 Samples.full = Some (Some off, Samples.full)) /\
  (exists off ca', Approx.removeOldest 0%Z 1 Samples.approx_full = Some (Z.of_nat off, ca')).
Proof.
  destruct (eviction_probe_first_min (K:=string) (V:=Z) 0%Z) as [Hg Ha].
  destruct (Hg Samples.full 1 ltac:(vm_compute; lia) ltac:(vm_compute; lia)) as (off & p & Hf & _).
  destruct (Ha Samples.approx_full 1 ltac:(vm_compute; lia) ltac:(vm_compute; lia))
    as (off' & p' & ca' & Hr & _).
  split; [exists off; exact Hf | exists off', ca'; exact Hr].
Defined.

Lemma NewLRU_rejects_nonpositive_witness :
  (exists msg, Generic.NewLRU (K:=string) (V:=Z) 0 false = Err msg) /\
  (exists msg, Approx.NewLRU (V:=Z) 0 false = Err msg) /\
  (exists c', Generic.Add "a"%string 1%Z 0 0 Samples.zero_cap = Some (false, c')) /\
  (exists ca', Approx.Add 0%Z "a"%string 1%Z (fun i => i) 0 Samples.approx_zero_cap
                 = Some (false, ca')).
Proof.
  destruct (NewLRU_rejects_nonpositive (K:=string) (V:=Z) 0%Z) as (Hg & Ha & Hadd & Hadda).
  split; [apply (proj2 (Hg 0%Z false)); lia|].
  split; [apply (proj2 (Ha 0%Z false)); lia|].
  split.
  - eexists. exact (Hadd Samples.zero_cap "a"%string 1%Z 0 0
                      ltac:(vm_compute; reflexivity) ltac:(vm_compute; reflexivity)).
  - eexists. exact (Hadda Samples.approx_zero_cap "a"%string 1%Z (fun i => i) 0
                      ltac:(vm_compute; reflexivity) ltac:(vm_compute; reflexivity)
                      ltac:(cbn; lia)).
Defined.

Lemma Remove_cases_witness :
  (exists c', Generic.Remove "a"%string Samples.full = Some (true, c') /\
     length (Generic.data c') = 1) /\
  Generic.Remove "z"%string Samples.one = Some (false, Samples.one) /\
  (exists ca', Approx.Remove 0%Z "a"%string Samples.approx_one = Some (true, ca') /\
     length (Approx.data ca') = 1) /\
  Approx.Remove 0%Z "z"%string Samples.approx_one = Some (false, Samples.approx_one).
Proof.
  destruct (Remove_cases (K:=string) (V:=Z) 0%Z) as (Hp & Ha & Hap & Haa).
  split; [|split; [|split]].
  - destruct (Hp Samples.full "a"%string 0 (mkEntry 2%Z "a"%string 10%Z)
                (mkEntry 3%Z "b"%string 20%Z)
                ltac:(apply wfb_wf; vm_compute; reflexivity) ltac:(vm_compute; reflexivity)
                ltac:(vm_compute; reflexivity) ltac:(vm_compute; reflexivity))
      as (c' & Hrem & _ & _ & Hlen & _).
    exists c'. split; [exact Hrem|]. rewrite Hlen. reflexivity.
  - exact (Ha Samples.one "z"%string ltac:(vm_compute; reflexivity)).
  - destruct (Hap Samples.approx_one "a"%string 0 (mkEntry 1%Z "a"%string 10%Z)
                ltac:(vm_compute; reflexivity) ltac:(vm_compute; reflexivity)
                ltac:(vm_compute; reflexivity) ltac:(vm_compute; discriminate))
      as (ca' & Hrem & _ & _ & Hlen & _).
    exists ca'. split; [exact Hrem|]. rewrite Hlen. reflexivity.
  - exact (Haa Samples.approx_one "z"%string ltac:(vm_compute; reflexivity)).
Defined.

Lemma Resize_sorts_without_shuffle_witness :
  (Z.of_nat (map_len (Generic.items Samples.full)) <= 2)%Z /\
  (Z.of_nat (length (Generic.data Samples.full)) <= 2)%Z /\
  Sorted stamp_desc (Generic.sort_desc (Generic.data Samples.full)) /\
  exists r, Generic.Resize ""%string 0%Z 2%Z Samples.full = Some r.
Proof.
  assert (Hm : (Z.of_nat (map_len (Generic.items Samples.full)) <= 2)%Z) by (vm_compute; discriminate).
  assert (Hl : (Z.of_nat (length (Generic.data Samples.full)) <= 2)%Z) by (vm_compute; discriminate).
  destruct (Resize_sorts_without_shuffle ""%string 0%Z Samples.full 2%Z Hm Hl) as [Hr Hs].
  split; [exact Hm|]. split; [exact Hl|]. split; [exact Hs|]. eexists. exact Hr.
Defined.

Lemma Get_mismatch_not_fatal_witness :
  Generic.Get 0%Z "a"%string Samples.mismatch = Some ((0%Z, false), Samples.mismatch) /\
  Approx.Get 0%Z "a"%string Samples.approx_mismatch
    = Some ((0%Z, false), Samples.approx_mismatch) /\
  Generic.Add "b"%string 5%Z 0 0 Samples.broken = None.
Proof.
  exact (Get_mismatch_not_fatal 0%Z Samples.mismatch "a"%string 0 (mkEntry 1%Z "b"%string 7%Z)
           Samples.approx_mismatch "a"%string 0 (mkEntry 1%Z "b"%string 7%Z)
           Samples.broken "b"%string 5%Z 0 0
           ltac:(vm_compute; reflexivity) ltac:(vm_compute; reflexivity)
           ltac:(vm_compute; discriminate)
           ltac:(vm_compute; reflexivity) ltac:(vm_compute; reflexivity)
           ltac:(vm_compute; discriminate)
           ltac:(vm_compute; reflexivity) ltac:(vm_compute; discriminate)
           ltac:(vm_compute; reflexivity)).
Defined.

Lemma evicting_Add_global_min_witness :
  (exists c', Generic.Add "c"%string 30%Z 1 0 Samples.full = Some (true, c')) /\
  (exists off e ca',
     Approx.data Samples.approx_full !! off = Some e /\
     Approx.Add 0%Z "c"%string 30%Z (fun i => i) 1 Samples.approx_full = Some (true, ca')).
Proof.
  destruct (evicting_Add_global_min (K:=string) (V:=Z) 0%Z) as [Hg Ha].
  split.
  - destruct (Hg Samples.full "c"%string 30%Z 1 0
                ltac:(apply wfb_wf; vm_compute; reflexivity) ltac:(vm_compute; reflexivity)
                ltac:(vm_compute; lia) ltac:(vm_compute; reflexivity) ltac:(vm_compute; lia))
      as (off & e & c' & _ & Hadd & _).
    exists c'. exact Hadd.
  - destruct (Ha Samples.approx_full "c"%string 30%Z (fun i => i) 1
                ltac:(unfold GenericWf.stamped; cbn; repeat constructor; cbn; lia)
                ltac:(vm_compute; reflexivity) ltac:(vm_compute; lia)
                ltac:(vm_compute; reflexivity) ltac:(vm_compute; reflexivity)
                ltac:(cbn; lia) ltac:(vm_compute; lia))
      as (off & e & ca' & He & Hadd & _).
    exists off, e, ca'. split; [exact He | exact Hadd].
Defined.

Lemma Get_miss_frame_witness :
  Generic.Get 0%Z "z"%string Samples.one = Some ((0%Z, false), Samples.one) /\
  Approx.Get 0%Z "z"%string Samples.approx_one = Some ((0%Z, false), Samples.approx_one).
Proof.
  exact (Get_miss_frame 0%Z Samples.one "z"%string Samples.approx_one "z"%string
           ltac:(vm_compute; reflexivity) ltac:(vm_compute; reflexivity)).
Defined.

Lemma Add_existing_key_in_place_witness :
  exists c', Generic.Add "a"%string 11%Z 0 0 Samples.one = Some (false, c') /\
    GenericWf.contents c' = <["a"%string := 11%Z]> (GenericWf.contents Samples.one).
Proof.
  destruct (Add_existing_key_in_place Samples.one "a"%string 11%Z 0 0 0
              ltac:(apply wfb_wf; vm_compute; reflexivity) ltac:(vm_compute; reflexivity))
    as (c' & Hadd & Hc & _).
  exists c'. split; [exact Hadd | exact Hc].
Defined.

Lemma Add_fresh_key_with_room_witness :
  exists c', Generic.Add "b"%string 20%Z 0 1 Samples.one = Some (false, c') /\
    map_len (Generic.items c') = 2.
Proof.
  destruct (Add_fresh_key_with_room Samples.one "b"%string 20%Z 0 1
              ltac:(apply wfb_wf; vm_compute; reflexivity) ltac:(vm_compute; reflexivity)
              ltac:(vm_compute; reflexivity) ltac:(vm_compute; reflexivity)
              ltac:(vm_compute; lia))
    as (c' & Hadd & _ & Hl & _).
  exists c'. split; [exact Hadd | exact Hl].
Defined.

Lemma Add_fresh_key_when_full_witness :
  exists c' k' v', Generic.Add "c"%string 30%Z 1 0 Samples.full = Some (true, c') /\
    GenericWf.contents Samples.full !! k' = Some v' /\
    Generic.evictLog c' = [(k', v')].
Proof.
  destruct (Add_fresh_key_when_full Samples.full "c"%string 30%Z 1 0
              ltac:(apply wfb_wf; vm_compute; reflexivity) ltac:(vm_compute; reflexivity)
              ltac:(vm_compute; reflexivity) ltac:(vm_compute; reflexivity)
              ltac:(vm_compute; lia))
    as (c' & k' & v' & Hadd & Hin & _ & _ & Hl).
  exists c', k', v'. split; [exact Hadd|]. split; [exact Hin | exact Hl].
Defined.

Lemma Add_then_Peek_Get_witness :
  Generic.Peek 0%Z "b"%string Samples.one_plus_b = Some ((20%Z, true), Samples.one_plus_b) /\
  exists c'', Generic.Get 0%Z "b"%string Samples.one_plus_b = Some ((20%Z, true), c'').
Proof.
  exact (Add_then_Peek_Get 0%Z Samples.one "b"%string 20%Z 0 1 false Samples.one_plus_b
           ltac:(apply wfb_wf; vm_compute; reflexivity) ltac:(vm_compute; discriminate)
           ltac:(vm_compute; reflexivity)).
Defined.

Lemma Remove_contents_witness :
  exists c', Generic.Remove "a"%string Samples.full = Some (true, c') /\
    Generic.evictLog c' = [("a"%string, 10%Z)].
Proof.
  destruct (Remove_contents Samples.full "a"%string
              ltac:(apply wfb_wf; vm_compute; reflexivity)) as (c' & Hr & _ & _ & _ & Hl).
  exists c'. split; [exact Hr | exact Hl].
Defined.

Lemma Get_returns_cached_witness :
  exists c', Generic.Get 0%Z "b"%string Samples.full = Some ((20%Z, true), c') /\
    GenericWf.contents c' = GenericWf.contents Samples.full.
Proof.
  destruct (Get_returns_cached 0%Z Samples.full "b"%string
              ltac:(apply wfb_wf; vm_compute; reflexivity)) as (c' & Hg & Hc & _).
  exists c'. split; [exact Hg | exact Hc].
Defined.

Lemma Purge_reports_live_witness :
  exists lg,
    Generic.Purge Samples.full = Some (tt, Generic.mkLRU ∅ [] 4%Z 2%Z true lg) /\
    lg ≡ₚ [("a"%string, 10%Z); ("b"%string, 20%Z)].
Proof.
  destruct (Purge_reports_live Samples.full ltac:(apply wfb_wf; vm_compute; reflexivity))
    as (lg & Hp & Hl).
  exists lg. split; [exact Hp | exact Hl].
Defined.

Lemma Resize_keeps_most_recent_witness :
  exists c', Generic.Resize ""%string 0%Z 1%Z Samples.full = Some (1%Z, c') /\
    GenericWf.wf c' /\ Generic.data c' = [mkEntry 3%Z "b"%string 20%Z] /\
    Generic.evictLog c' = [("a"%string, 10%Z)].
Proof.
  destruct (Resize_keeps_most_recent ""%string 0%Z Samples.full 1%Z
              ltac:(apply wfb_wf; vm_compute; reflexivity)
              ltac:(unfold GenericWf.stamped; repeat constructor; cbn; lia)
              ltac:(lia))
    as (c' & Hr & Hw & _ & Hd & _ & _ & Hl).
  exists c'. split; [exact Hr|]. split; [exact Hw|]. split; [exact Hd | exact Hl].
Defined.

Lemma Resize_negative_panics_witness :
  Generic.Resize ""%string 0%Z (-1)%Z Samples.full = None.
Proof. exact (Resize_negative_panics ""%string 0%Z Samples.full (-1)%Z ltac:(lia)). Defined.

Lemma calls_keep_wf_witness :
  GenericWf.wf Samples.session_end /\
  (Z.of_nat (map_len (Generic.items Samples.session_end)) <= Generic.size Samples.session_end)%Z.
Proof.
  exact (calls_keep_wf ""%string 0%Z 2%Z true Samples.session tt Samples.session_end
           ltac:(vm_compute; reflexivity)).
Defined.

Lemma add_loop_fills_witness :
  exists c',
    run_from (Generic.NewLRU (Z.of_nat 128) false)
      (Calls.add_loop (fun i : nat => pretty i) Z.of_nat (fun _ => 0) (fun i => i) 0 256)
      = Some (tt, c') /\
    map_len (Generic.items c') = Nat.min 256 128.
Proof.
  exact (add_loop_fills (fun i : nat => pretty i) Z.of_nat (fun _ => 0) (fun i => i) 128 256 false
           (fun a b Hab => inj (pretty (A:=nat)) a b Hab) ltac:(lia)
           ltac:(intros; cbn; lia) ltac:(intros; cbn; lia)).
Defined.

Lemma PeekOrAdd_contents_witness :
  Generic.PeekOrAdd 0%Z "a"%string 99%Z 0 0 Samples.one = Some ((10%Z, true, false), Samples.one).
Proof.
  exact (PeekOrAdd_contents 0%Z Samples.one "a"%string 99%Z 0 0
           ltac:(apply wfb_wf; vm_compute; reflexivity)).
Defined.

Lemma Approx_counter_overflow_witness :
  Approx.Add 0%Z "a"%string 20%Z (fun i => i) 0 Samples.approx_worn = None /\
  Approx.Get 0%Z "a"%string Samples.approx_worn = None.
Proof.
  destruct (Approx_counter_overflow 0%Z Samples.approx_worn "a"%string 20%Z (fun i => i) 0
              ltac:(vm_compute; reflexivity)) as [Ha Hg].
  split; [exact Ha|]. exact (Hg 0 (mkEntry 1%Z "a"%string 10%Z) ltac:(vm_compute; reflexivity)
                               ltac:(vm_compute; reflexivity) ltac:(vm_compute; reflexivity)).
Defined.
